(** * go-carbon UDP receiver: a model of [receiver/udp.go]

    The development follows the source file top-down: the clock and the
    32-bit counters, the store of incomplete lines ([incompleteStorage]),
    the ingestion loop of [Listen], and finally the three goroutines
    (ingestion, statistics reporter, caller of [Stop]) as an interleaving
    of their atomic actions. *)

From Stdlib Require Import ZArith Lia List Bool.
From Stdlib Require Import Strings.Byte.
From stdpp Require Import base gmap strings list fin_maps.

(** ** Time

    An instant of the process clock is a number of nanoseconds, a duration
    likewise. Every call of [time.Now()] in the source becomes an explicit
    argument holding the reading of that call, in call order. *)
Module time.
Definition Time := Z.
Definition Duration := Z.
Definition Second : Duration := 1000000000%Z.
Definition Add (t : Time) (d : Duration) : Time := (t + d)%Z.
Definition Before (t u : Time) : bool := (t <? u)%Z.
Definition After (t u : Time) : bool := (u <? t)%Z.
End time.

Bind Scope Z_scope with time.Time time.Duration.

(** ** [sync/atomic] on [uint32] *)
Module atomic.
Definition wrap : Z := (2 ^ 32)%Z.
(** [atomic.AddUint32(&x, delta)] returns and stores the wrapped sum. *)
Definition AddUint32 (x delta : Z) : Z := ((x + delta) mod wrap)%Z.
(** [-v] on a [uint32]. *)
Definition neg (v : Z) : Z := ((wrap - v) mod wrap)%Z.
End atomic.

(** ** Byte slices

    A Go [[]byte] is either [nil] or a sequence of bytes; [pop] and the
    ingestion loop tell the two apart, so a slice is an [option]. *)
Definition slice := option (list byte).

Definition len (s : slice) : nat :=
  match s with
  | None => 0
  | Some l => length l
  end.

Definition slice_bytes (s : slice) : list byte :=
  match s with
  | None => []
  | Some l => l
  end.

(** [append(nil, l...)]: appending nothing to [nil] stays [nil]. *)
Definition append_nil (l : list byte) : slice :=
  match l with
  | [] => None
  | _ :: _ => Some l
  end.

Definition newline : byte := x0a.

(** ** incompleteStorage *)

Record incompleteRecord := mkRecord {
  deadline : time.Time;
  data : slice
}.

Record incompleteStorage := mkStorage {
  Records : gmap string incompleteRecord;
  Expires : time.Duration;
  NextPurge : time.Time;
  MaxSize : Z
}.

Definition newIncompleteStorage (now : time.Time) : incompleteStorage :=
  {| Records := ∅;
     Expires := (5 * time.Second)%Z;
     MaxSize := 10000%Z;
     NextPurge := time.Add now time.Second |}.

Definition set_Records (m : gmap string incompleteRecord)
    (storage : incompleteStorage) : incompleteStorage :=
  {| Records := m;
     Expires := Expires storage;
     NextPurge := NextPurge storage;
     MaxSize := MaxSize storage |}.

Definition set_NextPurge (t : time.Time)
    (storage : incompleteStorage) : incompleteStorage :=
  {| Records := Records storage;
     Expires := Expires storage;
     NextPurge := t;
     MaxSize := MaxSize storage |}.

(** The test of the [range] loop of [purge]: an entry survives unless its
    deadline is before [now]. *)
Definition alive (now : time.Time) (kr : string * incompleteRecord) : Prop :=
  time.Before (deadline kr.2) now = false.

#[global] Instance alive_dec now kr : Decision (alive now kr).
Proof. unfold alive. apply _. Defined.

(** [purge]: [now_scan] is the reading taken before the loop, [now_set] the
    one taken for [NextPurge]. Deleting the entry under the cursor of a Go
    [range] is safe, so the loop is a filter. *)
Definition purge (now_scan now_set : time.Time)
    (storage : incompleteStorage) : incompleteStorage :=
  set_NextPurge (time.Add now_set time.Second)
    (set_Records (filter (alive now_scan) (Records storage)) storage).

(** [checkAndClear]: [now_check] is the reading compared with [NextPurge]. *)
Definition checkAndClear (now_check now_scan now_set : time.Time)
    (storage : incompleteStorage) : incompleteStorage :=
  if (Z.of_nat (size (Records storage)) <? MaxSize storage)%Z then storage
  else if time.After (NextPurge storage) now_check then storage
  else purge now_scan now_set storage.

(** The assignment [storage.Records[addr] = &incompleteRecord{...}] alone. *)
Definition store_record (now_store : time.Time) (addr : string) (d : slice)
    (storage : incompleteStorage) : incompleteStorage :=
  set_Records
    (<[addr := {| deadline := time.Add now_store (Expires storage);
                  data := d |}]> (Records storage))
    storage.

Definition store (now_store now_check now_scan now_set : time.Time)
    (addr : string) (d : slice)
    (storage : incompleteStorage) : incompleteStorage :=
  checkAndClear now_check now_scan now_set
    (store_record now_store addr d storage).

(** [pop] returns the slice and the updated storage; [now] is read only
    when a record is found. *)
Definition pop (now : time.Time) (addr : string)
    (storage : incompleteStorage) : slice * incompleteStorage :=
  match Records storage !! addr with
  | Some record =>
      let storage' := set_Records (delete addr (Records storage)) storage in
      if time.Before (deadline record) now then (None, storage')
      else (data record, storage')
  | None => (None, storage)
  end.

(** ** bytes.Buffer *)

Inductive error := io_EOF | other_error.

(** [readSlice delim buf]: the bytes up to and including the first [delim],
    the unread rest, and [io.EOF] when no [delim] is left (the line is then
    everything that was unread). *)
Fixpoint readSlice (delim : byte) (buf : list byte)
    : list byte * list byte * option error :=
  match buf with
  | [] => ([], [], Some io_EOF)
  | b :: rest =>
      if Byte.eqb b delim then ([b], rest, None)
      else
        let '(l, rest', e) := readSlice delim rest in
        (b :: l, rest', e)
  end.

(** [Buffer.ReadBytes] returns a copy of the slice, [append(nil, slice...)]. *)
Definition ReadBytes (delim : byte) (buf : list byte)
    : slice * list byte * option error :=
  let '(l, rest, e) := readSlice delim buf in (append_nil l, rest, e).

(** [bytes.NewBuffer(prev)] followed by [data.Write(b)]. *)
Definition NewBuffer_Write (prev b : list byte) : list byte := prev ++ b.

(** The buffer [data] of one turn of the outer loop: the pending bytes, if
    [pop] returned any, followed by [buf[:rlen]]. *)
Definition combine (prev : slice) (payload : list byte) : list byte :=
  match prev with
  | Some p => NewBuffer_Write p payload
  | None => payload
  end.

(** ** strings.Contains *)
Fixpoint Contains (s substr : string) : bool :=
  if String.prefix substr s then true
  else
    match s with
    | EmptyString => false
    | String _ s' => Contains s' substr
    end.

Definition closed_message : string := "use of closed network connection".

(** ** The receiver *)
Section Receiver.

(** [*points.Points], and [points.ParseText(string(line))]: [Some msg]
    when it returns a nil error. The parser is outside this file. *)
Context {Points : Type}.
Variable ParseText : list byte → option Points.

(** The fields of [UDP] the ingestion goroutine touches. A channel is
    the sequence of values sent on it so far plus a closed flag; the
    consumer of [out] is assumed to keep receiving, so a send returns. *)
Record UDP := mkUDP {
  out : list Points;
  finished : bool;
  conn_closed : bool;
  metricsReceived : Z;
  incompleteReceived : Z;
  errors : Z
}.

(** State of the ingestion goroutine: the receiver, the loop-local
    [lines], and the arguments [points.ParseText] was called with so far
    (oldest first). Calls of [logrus] only write to the log and are left
    out, [logIncomplete] among them. *)
Record ingest := mkIngest {
  rcv : UDP;
  lines : incompleteStorage;
  parse_calls : list (list byte)
}.

Definition NewUDP : UDP :=
  {| out := []; finished := false; conn_closed := false;
     metricsReceived := 0; incompleteReceived := 0; errors := 0 |}.

Definition add_metricsReceived (r : UDP) : UDP :=
  {| out := out r; finished := finished r; conn_closed := conn_closed r;
     metricsReceived := atomic.AddUint32 (metricsReceived r) 1;
     incompleteReceived := incompleteReceived r; errors := errors r |}.

Definition add_incompleteReceived (r : UDP) : UDP :=
  {| out := out r; finished := finished r; conn_closed := conn_closed r;
     metricsReceived := metricsReceived r;
     incompleteReceived := atomic.AddUint32 (incompleteReceived r) 1;
     errors := errors r |}.

Definition add_errors (r : UDP) : UDP :=
  {| out := out r; finished := finished r; conn_closed := conn_closed r;
     metricsReceived := metricsReceived r;
     incompleteReceived := incompleteReceived r;
     errors := atomic.AddUint32 (errors r) 1 |}.

(** [rcv.out <- msg] *)
Definition send_out (msg : Points) (r : UDP) : UDP :=
  {| out := out r ++ [msg]; finished := finished r;
     conn_closed := conn_closed r;
     metricsReceived := metricsReceived r;
     incompleteReceived := incompleteReceived r; errors := errors r |}.

(** [close(rcv.finished)] and the deferred [rcv.conn.Close()]. *)
Definition close_finished (r : UDP) : UDP :=
  {| out := out r; finished := true; conn_closed := true;
     metricsReceived := metricsReceived r;
     incompleteReceived := incompleteReceived r; errors := errors r |}.

(** The readings of [time.Now()] one iteration may take: in [pop], then
    in [store], [checkAndClear] and twice in [purge]. *)
Record clock := mkClock {
  now_pop : time.Time;
  now_store : time.Time;
  now_check : time.Time;
  now_scan : time.Time;
  now_set : time.Time
}.

(** The body of [if len(line) > 0 { ... }] for a complete line. *)
Definition dispatch (line : slice) (st : ingest) : ingest :=
  if (0 <? len line)%nat then
    let calls := parse_calls st ++ [slice_bytes line] in
    match ParseText (slice_bytes line) with
    | None =>
        {| rcv := add_errors (rcv st); lines := lines st;
           parse_calls := calls |}
    | Some msg =>
        {| rcv := send_out msg (add_metricsReceived (rcv st));
           lines := lines st; parse_calls := calls |}
    end
  else st.

(** The branch [err != nil] of the inner loop, which ends it. *)
Definition last_line (clk : clock) (peer : string) (line : slice)
    (e : error) (st : ingest) : ingest :=
  match e with
  | io_EOF =>
      if (0 <? len line)%nat then
        {| rcv := add_incompleteReceived (rcv st);
           lines := store (now_store clk) (now_check clk) (now_scan clk)
                      (now_set clk) peer line (lines st);
           parse_calls := parse_calls st |}
      else st
  | other_error =>
      {| rcv := add_errors (rcv st); lines := lines st;
         parse_calls := parse_calls st |}
  end.

(** The inner [for] loop over the combined buffer. Every turn that does
    not end the loop consumes at least one byte; [fuel] bounds the number
    of turns and [None] means it ran out. *)
Fixpoint read_lines (fuel : nat) (clk : clock) (peer : string)
    (buf : list byte) (st : ingest) : option ingest :=
  match fuel with
  | O => None
  | S fuel' =>
      let '(line, buf', err) := ReadBytes newline buf in
      match err with
      | Some e => Some (last_line clk peer line e st)
      | None => read_lines fuel' clk peer buf' (dispatch line st)
      end
  end.

(** What [ReadFromUDP] returned: [buf[:rlen]] and the peer, or an error
    with its message. [rlen] is at most the 2048 bytes of [buf]. *)
Inductive read :=
| Datagram (clk : clock) (payload : list byte) (peer : string)
| Failure (msg : string).

(** One turn of the outer loop after a successful read. *)
Definition receive (clk : clock) (payload : list byte) (peer : string)
    (st : ingest) : option ingest :=
  let '(prev, lines') := pop (now_pop clk) peer (lines st) in
  let buf := combine prev payload in
  read_lines (S (length buf)) clk peer buf
    {| rcv := rcv st; lines := lines'; parse_calls := parse_calls st |}.

(** Outcome of one turn of the outer loop. *)
Inductive turn :=
| Break
| Continue (st : ingest).

Definition Listen_turn (r : read) (st : ingest) : option turn :=
  match r with
  | Failure msg =>
      if Contains msg closed_message then Some Break
      else Some (Continue {| rcv := add_errors (rcv st); lines := lines st;
                             parse_calls := parse_calls st |})
  | Datagram clk payload peer =>
      Continue <$> receive clk payload peer st
  end.

(** The ingestion goroutine on a sequence of reads. It leaves the loop at
    the first expected-closure error and then closes [finished]; when the
    reads are exhausted it is blocked in [ReadFromUDP]. *)
Fixpoint Listen_loop (reads : list read) (st : ingest) : option ingest :=
  match reads with
  | [] => Some st
  | r :: reads' =>
      match Listen_turn r st with
      | None => None
      | Some Break =>
          Some {| rcv := close_finished (rcv st); lines := lines st;
                  parse_calls := parse_calls st |}
      | Some (Continue st') => Listen_loop reads' st'
      end
  end.

(** The goroutine as started by [Listen]: [lines := newIncompleteStorage()]
    at time [now0]. *)
Definition Listen (now0 : time.Time) (reads : list read) : option ingest :=
  Listen_loop reads
    {| rcv := NewUDP; lines := newIncompleteStorage now0;
       parse_calls := [] |}.

(** The messages the loop sends on [out] during its turns on datagrams of
    [peer], in order, up to the turn that leaves the loop. *)
Fixpoint forwarded_for (peer : string) (reads : list read) (st : ingest)
    : list Points :=
  match reads with
  | [] => []
  | r :: reads' =>
      match Listen_turn r st with
      | Some (Continue st') =>
          match r with
          | Datagram _ _ p =>
              if decide (p = peer)
              then drop (length (out (rcv st))) (out (rcv st'))
              else []
          | Failure _ => []
          end ++ forwarded_for peer reads' st'
      | _ => []
      end
  end.

End Receiver.


(** ** The goroutines of [Listen] and the caller of [Stop]

    The two goroutines started by [Listen] and the caller of [Stop] share
    the three counters (through [sync/atomic] only), the connection and the
    channels [out], [exit] and [finished]. An execution is an interleaving
    of their atomic actions. The ingestion goroutine is reduced to what it
    does to the shared state: add one to a counter, send on [out], leave
    the loop once the connection is closed, close [finished], run its
    deferred [conn.Close()]. *)
Module goroutines.
Section Goroutines.

Context {Points : Type}.

Inductive counter := c_metricsReceived | c_incompleteReceived | c_errors.

#[global] Instance counter_eq_dec : EqDecision counter.
Proof. solve_decision. Defined.

(** The reporter goroutine, by the statement it is about to run. *)
Inductive reporter_pc :=
| r_select
| r_load (c : counter)
| r_add (c : counter) (v : Z)
| r_stat (c : counter) (v : Z)
| r_returned.

(** The ingestion goroutine: in its loop, after [break], after
    [close(rcv.finished)], after the deferred [rcv.conn.Close()]. *)
Inductive ingest_pc := i_loop | i_left | i_closed | i_returned.

(** The caller of [Stop]: not yet called, blocked in [<-rcv.finished],
    returned. *)
Inductive stop_pc := s_idle | s_waiting | s_returned.

(** What is sent on [out]: a parsed message, or the point built by [Stat]
    for a counter with the value [float64(v)]. *)
Inductive sent :=
| sent_msg (msg : Points)
| sent_stat (c : counter) (v : Z).

Record system := mkSystem {
  ctr : counter → Z;
  chan_out : list sent;
  exit_closed : bool;
  finished_closed : bool;
  conn_is_closed : bool;
  rpc : reporter_pc;
  ipc : ingest_pc;
  spc : stop_pc
}.

Definition upd (c : counter) (x : Z) (f : counter → Z) : counter → Z :=
  fun c' => if decide (c = c') then x else f c'.

(** The state when [Listen] has returned nil. *)
Definition init : system :=
  {| ctr := fun _ => 0%Z; chan_out := []; exit_closed := false;
     finished_closed := false; conn_is_closed := false;
     rpc := r_select; ipc := i_loop; spc := s_idle |}.

Inductive action :=
| ingest_count (c : counter)   (* atomic.AddUint32(&c, 1) *)
| ingest_send (msg : Points)   (* rcv.out <- msg *)
| ingest_break                 (* ReadFromUDP fails on the closed conn; break *)
| ingest_close_finished        (* close(rcv.finished) *)
| ingest_deferred              (* deferred rcv.conn.Close() *)
| report_tick                  (* case <-ticker.C *)
| report_exit                  (* case <-rcv.exit: rcv.conn.Close(); return *)
| report_load                  (* v := atomic.LoadUint32(&c) *)
| report_add                   (* atomic.AddUint32(&c, -v) *)
| report_stat                  (* rcv.Stat(name, float64(v)) *)
| stop_close_exit              (* close(rcv.exit) *)
| stop_receive.                (* <-rcv.finished *)

(** After the [Stat] of a counter the reporter turns to the next counter,
    and after the last one back to the [select]. *)
Definition after_stat (c : counter) : reporter_pc :=
  match c with
  | c_metricsReceived => r_load c_incompleteReceived
  | c_incompleteReceived => r_load c_errors
  | c_errors => r_select
  end.

Definition set_ctr (f : counter → Z) (s : system) : system :=
  {| ctr := f; chan_out := chan_out s; exit_closed := exit_closed s;
     finished_closed := finished_closed s;
     conn_is_closed := conn_is_closed s;
     rpc := rpc s; ipc := ipc s; spc := spc s |}.

Definition set_out (o : list sent) (s : system) : system :=
  {| ctr := ctr s; chan_out := o; exit_closed := exit_closed s;
     finished_closed := finished_closed s;
     conn_is_closed := conn_is_closed s;
     rpc := rpc s; ipc := ipc s; spc := spc s |}.

Definition set_rpc (p : reporter_pc) (s : system) : system :=
  {| ctr := ctr s; chan_out := chan_out s; exit_closed := exit_closed s;
     finished_closed := finished_closed s;
     conn_is_closed := conn_is_closed s;
     rpc := p; ipc := ipc s; spc := spc s |}.

Definition set_ipc (p : ingest_pc) (s : system) : system :=
  {| ctr := ctr s; chan_out := chan_out s; exit_closed := exit_closed s;
     finished_closed := finished_closed s;
     conn_is_closed := conn_is_closed s;
     rpc := rpc s; ipc := p; spc := spc s |}.

Definition set_spc (p : stop_pc) (s : system) : system :=
  {| ctr := ctr s; chan_out := chan_out s; exit_closed := exit_closed s;
     finished_closed := finished_closed s;
     conn_is_closed := conn_is_closed s;
     rpc := rpc s; ipc := ipc s; spc := p |}.

Definition set_exit_closed (s : system) : system :=
  {| ctr := ctr s; chan_out := chan_out s; exit_closed := true;
     finished_closed := finished_closed s;
     conn_is_closed := conn_is_closed s;
     rpc := rpc s; ipc := ipc s; spc := spc s |}.

Definition set_finished_closed (s : system) : system :=
  {| ctr := ctr s; chan_out := chan_out s; exit_closed := exit_closed s;
     finished_closed := true;
     conn_is_closed := conn_is_closed s;
     rpc := rpc s; ipc := ipc s; spc := spc s |}.

Definition set_conn_closed (s : system) : system :=
  {| ctr := ctr s; chan_out := chan_out s; exit_closed := exit_closed s;
     finished_closed := finished_closed s;
     conn_is_closed := true;
     rpc := rpc s; ipc := ipc s; spc := spc s |}.

(** One atomic action; [None] when the action is not enabled (its
    goroutine is elsewhere, or it would block). *)
Definition step (a : action) (s : system) : option system :=
  match a with
  | ingest_count c =>
      match ipc s with
      | i_loop => Some (set_ctr (upd c (atomic.AddUint32 (ctr s c) 1) (ctr s)) s)
      | _ => None
      end
  | ingest_send msg =>
      match ipc s with
      | i_loop => Some (set_out (chan_out s ++ [sent_msg msg]) s)
      | _ => None
      end
  | ingest_break =>
      match ipc s with
      | i_loop => if conn_is_closed s then Some (set_ipc i_left s) else None
      | _ => None
      end
  | ingest_close_finished =>
      match ipc s with
      | i_left => Some (set_ipc i_closed (set_finished_closed s))
      | _ => None
      end
  | ingest_deferred =>
      match ipc s with
      | i_closed => Some (set_ipc i_returned (set_conn_closed s))
      | _ => None
      end
  | report_tick =>
      match rpc s with
      | r_select => Some (set_rpc (r_load c_metricsReceived) s)
      | _ => None
      end
  | report_exit =>
      match rpc s with
      | r_select =>
          if exit_closed s then Some (set_rpc r_returned (set_conn_closed s))
          else None
      | _ => None
      end
  | report_load =>
      match rpc s with
      | r_load c => Some (set_rpc (r_add c (ctr s c)) s)
      | _ => None
      end
  | report_add =>
      match rpc s with
      | r_add c v =>
          Some (set_rpc (r_stat c v)
                  (set_ctr (upd c (atomic.AddUint32 (ctr s c) (atomic.neg v))
                              (ctr s)) s))
      | _ => None
      end
  | report_stat =>
      match rpc s with
      | r_stat c v =>
          Some (set_rpc (after_stat c)
                  (set_out (chan_out s ++ [sent_stat c v]) s))
      | _ => None
      end
  | stop_close_exit =>
      match spc s with
      | s_idle => Some (set_spc s_waiting (set_exit_closed s))
      | _ => None
      end
  | stop_receive =>
      match spc s with
      | s_waiting =>
          if finished_closed s then Some (set_spc s_returned s) else None
      | _ => None
      end
  end.

(** An execution: the actions in the order they take effect. *)
Fixpoint exec (tr : list action) (s : system) : option system :=
  match tr with
  | [] => Some s
  | a :: tr' =>
      match step a s with
      | Some s' => exec tr' s'
      | None => None
      end
  end.

(** Number of increments of [c] issued in an execution. *)
Fixpoint issued (c : counter) (tr : list action) : Z :=
  match tr with
  | [] => 0
  | ingest_count c' :: tr' =>
      ((if decide (c = c') then 1 else 0) + issued c tr')%Z
  | _ :: tr' => issued c tr'
  end.

(** Sum of the values the reporter has emitted for [c]. *)
Fixpoint emitted (c : counter) (o : list sent) : Z :=
  match o with
  | [] => 0
  | sent_stat c' v :: o' =>
      ((if decide (c = c') then v else 0) + emitted c o')%Z
  | _ :: o' => emitted c o'
  end.

(** The value the reporter has taken off [c] and not yet handed to [Stat]. *)
Definition in_flight (c : counter) (p : reporter_pc) : Z :=
  match p with
  | r_stat c' v => if decide (c = c') then v else 0%Z
  | _ => 0%Z
  end.

(** Messages sent on [out] by the ingestion goroutine. *)
Fixpoint forwarded (o : list sent) : list Points :=
  match o with
  | [] => []
  | sent_msg msg :: o' => msg :: forwarded o'
  | _ :: o' => forwarded o'
  end.

(** The reporter is between two rounds, or gone. *)
Definition reporter_idle (p : reporter_pc) : bool :=
  match p with
  | r_select | r_returned => true
  | _ => false
  end.

(** The books of counter [c] balance at [n] without wrap-around: nothing
    is negative, emitted plus in flight plus held is [n], and a value the
    reporter has loaded is at most what the counter holds. *)
Definition balanced (c : counter) (n : Z) (s : system) : Prop :=
  (0 ≤ emitted c (chan_out s))%Z ∧
  (0 ≤ in_flight c (rpc s))%Z ∧
  (0 ≤ ctr s c)%Z ∧
  (emitted c (chan_out s) + in_flight c (rpc s) + ctr s c = n)%Z ∧
  match rpc s with
  | r_add c' v | r_stat c' v => c' = c → (0 ≤ v ≤ ctr s c + in_flight c (rpc s))%Z
  | _ => True
  end.

(** No increment of [c] in the execution [tr] from [s] wraps the counter:
    each [atomic.AddUint32(&c, 1)] finds it below [2^32 - 1]. *)
Fixpoint no_wrap (c : counter) (tr : list action) (s : system) : Prop :=
  match tr with
  | [] => True
  | a :: tr' =>
      match a with
      | ingest_count c' => c = c' → (ctr s c + 1 < 2 ^ 32)%Z
      | _ => True
      end ∧
      match step a s with
      | Some s' => no_wrap c tr' s'
      | None => True
      end
  end.

End Goroutines.
End goroutines.


(** ** The stream of one sender

    The records of a newline-delimited stream, each with its delimiter, and
    the unterminated rest; [cur] holds the bytes of the record being read.
    This is the reading of the unsplit stream that the datagram-by-datagram
    loop is compared with. *)
Fixpoint records_from (cur stream : list byte) : list (list byte) :=
  match stream with
  | [] => []
  | b :: rest =>
      if Byte.eqb b newline then (cur ++ [b]) :: records_from [] rest
      else records_from (cur ++ [b]) rest
  end.

Fixpoint tail_from (cur stream : list byte) : list byte :=
  match stream with
  | [] => cur
  | b :: rest =>
      if Byte.eqb b newline then tail_from [] rest
      else tail_from (cur ++ [b]) rest
  end.

Definition stream_records (stream : list byte) : list (list byte) :=
  records_from [] stream.

(** The datagrams of one sender, each with the clock readings of its turn. *)
Definition from_peer (peer : string) (ds : list (clock * list byte))
    : list read :=
  map (fun d => Datagram d.1 d.2 peer) ds.

Definition payloads (ds : list (clock * list byte)) : list byte :=
  concat (map snd ds).

(** Each datagram arrives before the expiry of what the turn before it
    stored has elapsed: the reading of its [pop] is at most the reading of
    that [store] plus [Expires]. *)
Fixpoint in_time (expires : time.Duration) (ds : list (clock * list byte))
    : Prop :=
  match ds with
  | [] => True
  | d1 :: rest =>
      match rest with
      | [] => True
      | d2 :: _ => (now_pop d2.1 ≤ now_store d1.1 + expires)%Z
      end ∧ in_time expires rest
  end.

(** The clock does not run backwards from the scan of one turn to the
    [pop] of the next. *)
Fixpoint clock_forward (ds : list (clock * list byte)) : Prop :=
  match ds with
  | [] => True
  | d1 :: rest =>
      match rest with
      | [] => True
      | d2 :: _ => (now_scan d1.1 ≤ now_pop d2.1)%Z
      end ∧ clock_forward rest
  end.

(** The bytes [peer] has sent in a sequence of reads, in order. *)
Fixpoint stream_of (peer : string) (reads : list read) : list byte :=
  match reads with
  | [] => []
  | Datagram _ payload p :: reads' =>
      (if decide (p = peer) then payload else []) ++ stream_of peer reads'
  | Failure _ :: reads' => stream_of peer reads'
  end.

(** No read fails with the closed-connection error. *)
Definition no_closure (reads : list read) : Prop :=
  Forall (fun r => match r with
                   | Failure msg => Contains msg closed_message = false
                   | Datagram _ _ _ => True
                   end) reads.

(** The clock readings of the turns never decrease, starting at [t]. *)
Fixpoint clock_sorted (t : time.Time) (reads : list read) : Prop :=
  match reads with
  | [] => True
  | Failure _ :: reads' => clock_sorted t reads'
  | Datagram clk _ _ :: reads' =>
      (t ≤ now_pop clk ∧ now_pop clk ≤ now_store clk ∧
       now_store clk ≤ now_check clk ∧ now_check clk ≤ now_scan clk ∧
       now_scan clk ≤ now_set clk)%Z ∧
      clock_sorted (now_set clk) reads'
  end.

(** Each datagram of [peer] is popped no later than [expires] after the
    [store] reading of the turn on its previous datagram, [stored]. *)
Fixpoint peer_in_time (peer : string) (expires : time.Duration)
    (stored : option time.Time) (reads : list read) : Prop :=
  match reads with
  | [] => True
  | Failure _ :: reads' => peer_in_time peer expires stored reads'
  | Datagram clk _ p :: reads' =>
      if decide (p = peer) then
        match stored with
        | Some ts => (now_pop clk ≤ ts + expires)%Z
        | None => True
        end ∧ peer_in_time peer expires (Some (now_store clk)) reads'
      else peer_in_time peer expires stored reads'
  end.

(** What the storage holds for [peer] when the unterminated rest of its
    stream is [t]: nothing when [t] is empty; otherwise the record written
    by the [store] read at [stored], unless its deadline is already before
    [tnow]. *)
Definition pending (peer : string) (t : list byte)
    (stored : option time.Time) (tnow : time.Time)
    (storage : incompleteStorage) : Prop :=
  (t = [] ∧ Records storage !! peer = None) ∨
  (t ≠ [] ∧ ∃ ts, stored = Some ts ∧
     (Records storage !! peer =
        Some {| deadline := (ts + Expires storage)%Z; data := Some t |}
      ∨ (ts + Expires storage < tnow)%Z)).

#[global] Instance byte_eq_dec : EqDecision byte := Byte.byte_eq_dec.

(** Number of delimiter bytes in a buffer. *)
Definition delimiters (l : list byte) : nat :=
  length (filter (fun b => b = newline) l).

(** No record of the storage holds a delimiter byte. *)
Definition fragments_clean (storage : incompleteStorage) : Prop :=
  ∀ addr record, Records storage !! addr = Some record →
    newline ∉ slice_bytes (data record).

(** ** Sequences of [store] calls

    Used to state how often [purge] can run: a call with its four clock
    readings, and the same calls with the assignment alone. *)
Record store_call := mkCall {
  call_now_store : time.Time;
  call_now_check : time.Time;
  call_now_scan : time.Time;
  call_now_set : time.Time;
  call_addr : string;
  call_data : slice
}.

Definition store_calls (calls : list store_call)
    (storage : incompleteStorage) : incompleteStorage :=
  foldl (fun s c =>
           store (call_now_store c) (call_now_check c) (call_now_scan c)
             (call_now_set c) (call_addr c) (call_data c) s)
    storage calls.

Definition store_records (calls : list store_call)
    (storage : incompleteStorage) : incompleteStorage :=
  foldl (fun s c => store_record (call_now_store c) (call_addr c)
                      (call_data c) s)
    storage calls.

(** ** logIncomplete

    [bytes.IndexByte(b, c)]: the index of the first [c] in [b], or -1. *)
Fixpoint IndexByte (b : list byte) (c : byte) : Z :=
  match b with
  | [] => (-1)%Z
  | x :: rest =>
      if Byte.eqb x c then 0%Z
      else
        let i := IndexByte rest c in
        if (i <? 0)%Z then (-1)%Z else (i + 1)%Z
  end.

(** What [logIncomplete] hands to [logrus.Warningf] besides the format:
    in the short form the peer, [message[:p1]], the number of bytes left
    out and the last line; in the full form the peer and the message. *)
Inductive warning :=
| warn_short (peer : string) (head : list byte) (skipped : Z)
    (lastLine : list byte)
| warn_full (peer : string) (message : list byte).

Definition logIncomplete (peer : string) (message lastLine : list byte)
    : warning :=
  let p1 := IndexByte message newline in
  if negb (p1 =? -1)%Z &&
     (p1 + Z.of_nat (length lastLine) <? Z.of_nat (length message) - 10)%Z
  then
    warn_short peer (take (Z.to_nat p1) message)
      (Z.of_nat (length message) - p1 - Z.of_nat (length lastLine) - 2)
      lastLine
  else warn_full peer message.

(** The warning the inner loop writes on the buffer [buf] of a turn whose
    datagram is [payload]: the same reads as [read_lines], ending at the
    first error; [enabled] is the field [rcv.logIncomplete]. *)
Fixpoint read_lines_warning (fuel : nat) (enabled : bool) (peer : string)
    (payload buf : list byte) : option (option warning) :=
  match fuel with
  | O => None
  | S fuel' =>
      let '(line, buf', err) := ReadBytes newline buf in
      match err with
      | Some io_EOF =>
          Some (if (0 <? len line)%nat then
                  if enabled
                  then Some (logIncomplete peer payload (slice_bytes line))
                  else None
                else None)
      | Some other_error => Some None
      | None => read_lines_warning fuel' enabled peer payload buf'
      end
  end.

Definition receive_warning (enabled : bool) (clk : clock)
    (payload : list byte) (peer : string) (storage : incompleteStorage)
    : option (option warning) :=
  let buf := combine (pop (now_pop clk) peer storage).1 payload in
  read_lines_warning (S (length buf)) enabled peer payload buf.

(** ** Counting along the reads

    The read errors the loop counts: those before the first closure. *)
Fixpoint read_errors (reads : list read) : Z :=
  match reads with
  | [] => 0
  | Failure msg :: reads' =>
      if Contains msg closed_message then 0 else (1 + read_errors reads')%Z
  | Datagram _ _ _ :: reads' => read_errors reads'
  end.

(** The books of the loop since the state [st0], with [e] read errors
    counted since then: the parser was called on [calls], the messages
    sent since are the accepted ones in order, [metricsReceived] has
    gone up by their number and [errors] by the number of rejected ones
    plus the read errors, both as [uint32]. Nothing is said of the
    values the counters started from. *)
Definition accounted_since {Points : Type}
    (ParseText : list byte → option Points)
    (st0 : @ingest Points) (e : Z) (calls : list (list byte))
    (st : @ingest Points) : Prop :=
  parse_calls st = parse_calls st0 ++ calls ∧
  out (rcv st) = out (rcv st0) ++ omap ParseText calls ∧
  (metricsReceived (rcv st) mod 2 ^ 32
   = (metricsReceived (rcv st0)
      + Z.of_nat (length (omap ParseText calls))) mod 2 ^ 32)%Z ∧
  (errors (rcv st) mod 2 ^ 32
   = (errors (rcv st0)
      + (Z.of_nat (length calls)
         - Z.of_nat (length (omap ParseText calls))) + e) mod 2 ^ 32)%Z.

(** The reporter's [atomic.AddUint32(&c, -v)] on the receiver's counter
    [c], where [v] is the value it loaded before. *)
Definition report_subtract {Points : Type} (c : goroutines.counter) (v : Z)
    (r : @UDP Points) : @UDP Points :=
  match c with
  | goroutines.c_metricsReceived =>
      {| out := out r; finished := finished r; conn_closed := conn_closed r;
         metricsReceived :=
           atomic.AddUint32 (metricsReceived r) (atomic.neg v);
         incompleteReceived := incompleteReceived r; errors := errors r |}
  | goroutines.c_incompleteReceived =>
      {| out := out r; finished := finished r; conn_closed := conn_closed r;
         metricsReceived := metricsReceived r;
         incompleteReceived :=
           atomic.AddUint32 (incompleteReceived r) (atomic.neg v);
         errors := errors r |}
  | goroutines.c_errors =>
      {| out := out r; finished := finished r; conn_closed := conn_closed r;
         metricsReceived := metricsReceived r;
         incompleteReceived := incompleteReceived r;
         errors := atomic.AddUint32 (errors r) (atomic.neg v) |}
  end.

(** The same on the state of the ingestion goroutine, which shares the
    receiver with the reporter. *)
Definition subtracted {Points : Type} (c : goroutines.counter) (v : Z)
    (st : @ingest Points) : @ingest Points :=
  {| rcv := report_subtract c v (rcv st); lines := lines st;
     parse_calls := parse_calls st |}.

(** Every entry of the storage belongs to a sender in [ok] and holds at
    least one byte. *)
Definition entries_from (ok : string → Prop) (storage : incompleteStorage)
    : Prop :=
  ∀ addr record, Records storage !! addr = Some record →
    ok addr ∧ ∃ b t, data record = Some (b :: t).

(** ** Rounds of the reporter *)

(** The counters of the statistics sent on [out], in order. *)
Fixpoint stats {Points : Type} (o : list (@goroutines.sent Points))
    : list goroutines.counter :=
  match o with
  | [] => []
  | goroutines.sent_stat c _ :: o' => c :: stats o'
  | goroutines.sent_msg _ :: o' => stats o'
  end.

(** Position of a counter in a round, and the counter at a position. *)
Definition round_index (c : goroutines.counter) : nat :=
  match c with
  | goroutines.c_metricsReceived => 0
  | goroutines.c_incompleteReceived => 1
  | goroutines.c_errors => 2
  end.

Definition round_counter (k : nat) : goroutines.counter :=
  match k mod 3 with
  | 0 => goroutines.c_metricsReceived
  | 1 => goroutines.c_incompleteReceived
  | _ => goroutines.c_errors
  end.

(** How many statistics of the current round the reporter has sent. *)
Definition round_phase (p : goroutines.reporter_pc) : nat :=
  match p with
  | goroutines.r_select | goroutines.r_returned => 0
  | goroutines.r_load c | goroutines.r_add c _ | goroutines.r_stat c _ =>
      round_index c
  end.

(** The actions of one round of the reporter with nothing in between. *)
Definition report_counter {Points : Type} : list (@goroutines.action Points) :=
  [goroutines.report_load; goroutines.report_add; goroutines.report_stat].

Definition report_round {Points : Type} : list (@goroutines.action Points) :=
  goroutines.report_tick :: report_counter ++ report_counter ++ report_counter.

(** The actions that bring a state to the return of [Stop]: [Stop] closes
    [exit] if it has not, the reporter ends its round and takes the exit
    branch, the ingestion goroutine leaves its loop and closes
    [finished], [Stop] receives. *)
Definition rest_of_round {Points : Type} (c : goroutines.counter)
    : list (@goroutines.action Points) :=
  match c with
  | goroutines.c_metricsReceived => report_counter ++ report_counter
  | goroutines.c_incompleteReceived => report_counter
  | goroutines.c_errors => []
  end.

Definition reporter_exit {Points : Type} (p : goroutines.reporter_pc)
    : list (@goroutines.action Points) :=
  match p with
  | goroutines.r_select => [goroutines.report_exit]
  | goroutines.r_load c =>
      report_counter ++ rest_of_round c ++ [goroutines.report_exit]
  | goroutines.r_add c _ =>
      [goroutines.report_add; goroutines.report_stat] ++ rest_of_round c
        ++ [goroutines.report_exit]
  | goroutines.r_stat c _ =>
      [goroutines.report_stat] ++ rest_of_round c
        ++ [goroutines.report_exit]
  | goroutines.r_returned => []
  end.

Definition ingest_exit {Points : Type} (p : goroutines.ingest_pc)
    : list (@goroutines.action Points) :=
  match p with
  | goroutines.i_loop =>
      [goroutines.ingest_break; goroutines.ingest_close_finished]
  | goroutines.i_left => [goroutines.ingest_close_finished]
  | goroutines.i_closed | goroutines.i_returned => []
  end.

Definition stop_exit {Points : Type} (s : @goroutines.system Points)
    : list (@goroutines.action Points) :=
  match goroutines.spc s with
  | goroutines.s_idle => [goroutines.stop_close_exit]
  | _ => []
  end
  ++ reporter_exit (goroutines.rpc s)
  ++ ingest_exit (goroutines.ipc s)
  ++ match goroutines.spc s with
     | goroutines.s_returned => []
     | _ => [goroutines.stop_receive]
     end.

(** * Properties of incompleteStorage *)
Section StorageFacts.

Implicit Types (storage : incompleteStorage) (addr : string).

Lemma purge_lookup now_scan now_set storage addr :
  Records (purge now_scan now_set storage) !! addr =
    match Records storage !! addr with
    | Some record =>
        if time.Before (deadline record) now_scan then None else Some record
    | None => None
    end.
Proof.
  unfold purge; simpl.
  destruct (Records storage !! addr) as [record|] eqn:E.
  - destruct (time.Before (deadline record) now_scan) eqn:B.
    + apply map_lookup_filter_None. right. intros x Hx.
      rewrite E in Hx. injection Hx as <-. unfold alive; simpl. congruence.
    + apply map_lookup_filter_Some. split; [exact E | exact B].
  - apply map_lookup_filter_None. left. exact E.
Qed.

Lemma checkAndClear_idle now_check now_scan now_set storage :
  (now_check < NextPurge storage)%Z →
  checkAndClear now_check now_scan now_set storage = storage.
Proof.
  intros H. unfold checkAndClear, time.After.
  destruct (_ <? MaxSize storage)%Z; [reflexivity|].
  apply Z.ltb_lt in H. rewrite H. reflexivity.
Qed.

Lemma store_calls_idle calls : ∀ storage,
  Forall (fun c => (call_now_check c < NextPurge storage)%Z) calls →
  store_calls calls storage = store_records calls storage.
Proof.
  induction calls as [|c calls IH]; intros storage Hall; [reflexivity|].
  inversion Hall as [|? ? Hc Hrest]; subst.
  unfold store_calls, store_records in *. simpl.
  unfold store at 2. rewrite checkAndClear_idle by exact Hc.
  apply IH. exact Hrest.
Qed.

Lemma checkAndClear_Expires now_check now_scan now_set storage :
  Expires (checkAndClear now_check now_scan now_set storage) =
    Expires storage.
Proof.
  unfold checkAndClear. destruct (_ <? _)%Z; [reflexivity|].
  destruct (time.After _ _); reflexivity.
Qed.

Lemma checkAndClear_lookup now_check now_scan now_set storage addr :
  Records (checkAndClear now_check now_scan now_set storage) !! addr =
    Records storage !! addr
  ∨ Records (checkAndClear now_check now_scan now_set storage) !! addr =
      match Records storage !! addr with
      | Some record =>
          if time.Before (deadline record) now_scan then None
          else Some record
      | None => None
      end.
Proof.
  unfold checkAndClear.
  destruct (_ <? MaxSize storage)%Z; [left; reflexivity|].
  destruct (time.After _ _); [left; reflexivity|].
  right. apply purge_lookup.
Qed.

Lemma store_Expires now_store now_check now_scan now_set addr d storage :
  Expires (store now_store now_check now_scan now_set addr d storage) =
    Expires storage.
Proof. unfold store. rewrite checkAndClear_Expires. reflexivity. Qed.

Lemma store_lookup_self now_store now_check now_scan now_set addr d storage :
  (now_scan ≤ now_store + Expires storage)%Z →
  Records (store now_store now_check now_scan now_set addr d storage)
    !! addr =
  Some {| deadline := (now_store + Expires storage)%Z; data := d |}.
Proof.
  intros Hfresh. unfold store.
  destruct (checkAndClear_lookup now_check now_scan now_set
              (store_record now_store addr d storage) addr) as [->| ->];
    unfold store_record at 1; simpl; rewrite lookup_insert_eq;
    [reflexivity|].
  simpl. unfold time.Before, time.Add.
  destruct (_ <? now_scan)%Z eqn:B; [|reflexivity].
  apply Z.ltb_lt in B. lia.
Qed.

Lemma pop_Expires now addr storage :
  Expires (pop now addr storage).2 = Expires storage.
Proof.
  unfold pop. destruct (Records storage !! addr); [|reflexivity].
  destruct (time.Before _ _); reflexivity.
Qed.

Lemma pop_lookup_self now addr storage :
  Records (pop now addr storage).2 !! addr = None.
Proof.
  unfold pop. destruct (Records storage !! addr) eqn:E; [|exact E].
  destruct (time.Before _ _); simpl; apply lookup_delete_eq.
Qed.

Lemma pop_lookup_other now addr addr' storage :
  addr' ≠ addr →
  Records (pop now addr storage).2 !! addr' = Records storage !! addr'.
Proof.
  intros Hne. unfold pop. destruct (Records storage !! addr); [|reflexivity].
  destruct (time.Before _ _); simpl; apply lookup_delete_ne; congruence.
Qed.

Lemma store_lookup_other now_store now_check now_scan now_set addr addr' d
    storage :
  addr' ≠ addr →
  Records (store now_store now_check now_scan now_set addr d storage)
    !! addr' = Records storage !! addr'
  ∨ (Records (store now_store now_check now_scan now_set addr d storage)
       !! addr' = None ∧
     ∃ record, Records storage !! addr' = Some record ∧
               (deadline record < now_scan)%Z).
Proof.
  intros Hne. unfold store.
  destruct (checkAndClear_lookup now_check now_scan now_set
              (store_record now_store addr d storage) addr') as [->| ->];
    unfold store_record; simpl; rewrite lookup_insert_ne by congruence.
  - left; reflexivity.
  - destruct (Records storage !! addr') as [record|] eqn:E;
      [|left; reflexivity].
    unfold time.Before. destruct (_ <? now_scan)%Z eqn:B.
    + right. split; [reflexivity|]. exists record.
      apply Z.ltb_lt in B. auto.
    + left; reflexivity.
Qed.

Lemma store_lookup_self_or_purged now_store now_check now_scan now_set addr d
    storage :
  Records (store now_store now_check now_scan now_set addr d storage)
    !! addr =
    Some {| deadline := (now_store + Expires storage)%Z; data := d |}
  ∨ (now_store + Expires storage < now_scan)%Z.
Proof.
  unfold store.
  destruct (checkAndClear_lookup now_check now_scan now_set
              (store_record now_store addr d storage) addr) as [->| ->];
    unfold store_record at 1; simpl; rewrite lookup_insert_eq;
    [left; reflexivity|].
  simpl. unfold time.Before, time.Add.
  destruct (_ <? now_scan)%Z eqn:B; [|left; reflexivity].
  apply Z.ltb_lt in B. right. exact B.
Qed.

Lemma pop_miss now addr storage :
  Records storage !! addr = None → (pop now addr storage).1 = None.
Proof. intros E. unfold pop. rewrite E. reflexivity. Qed.

Lemma pop_hit now addr storage record :
  Records storage !! addr = Some record →
  (now ≤ deadline record)%Z →
  (pop now addr storage).1 = data record.
Proof.
  intros E H. unfold pop, time.Before. rewrite E.
  apply Z.ltb_ge in H. rewrite H. reflexivity.
Qed.

Lemma pop_clean now addr storage :
  fragments_clean storage →
  fragments_clean (pop now addr storage).2 ∧
  newline ∉ slice_bytes (pop now addr storage).1.
Proof.
  intros Hclean. unfold pop.
  destruct (Records storage !! addr) as [record|] eqn:E.
  - assert (Hdel : fragments_clean
                     (set_Records (delete addr (Records storage)) storage)).
    { intros a r Hr. simpl in Hr. apply lookup_delete_Some in Hr as [_ Hr].
      exact (Hclean a r Hr). }
    destruct (time.Before _ _); simpl; split; try exact Hdel.
    + apply not_elem_of_nil.
    + exact (Hclean addr record E).
  - split; [exact Hclean | apply not_elem_of_nil].
Qed.

Lemma store_clean now_store now_check now_scan now_set addr d storage :
  fragments_clean storage → newline ∉ slice_bytes d →
  fragments_clean (store now_store now_check now_scan now_set addr d storage).
Proof.
  intros Hclean Hd a r Hr. unfold store in Hr.
  assert (Hin : Records (store_record now_store addr d storage) !! a
                = Some r).
  { destruct (checkAndClear_lookup now_check now_scan now_set
                (store_record now_store addr d storage) a) as [H|H];
      rewrite H in Hr; [exact Hr|].
    destruct (Records (store_record now_store addr d storage) !! a) as [r'|];
      [|discriminate].
    destruct (time.Before _ _); [discriminate | exact Hr]. }
  unfold store_record in Hin. simpl in Hin.
  apply lookup_insert_Some in Hin as [[_ <-]|[_ Hin]]; [exact Hd|].
  exact (Hclean a r Hin).
Qed.

(** C4: [pop] removes the entry of [addr] in every case; it returns the
    stored data when the deadline is not before the current time, and nil
    when the entry is absent or its deadline has passed. A non-nil result
    is always the data of an entry whose deadline has not passed. *)
Theorem pop_returns_fresh_or_nil (now : time.Time) addr storage :
  (∀ record, Records storage !! addr = Some record →
     (now ≤ deadline record)%Z →
     (pop now addr storage).1 = data record) ∧
  (∀ record, Records storage !! addr = Some record →
     (deadline record < now)%Z →
     (pop now addr storage).1 = None) ∧
  (Records storage !! addr = None →
     pop now addr storage = (None, storage)) ∧
  Records (pop now addr storage).2 = delete addr (Records storage) ∧
  (∀ l, (pop now addr storage).1 = Some l →
     ∃ record, Records storage !! addr = Some record ∧
               data record = Some l ∧ (now ≤ deadline record)%Z).
Proof.
  unfold pop, time.Before.
  destruct (Records storage !! addr) as [record|] eqn:E.
  - destruct (deadline record <? now)%Z eqn:B; simpl;
      [apply Z.ltb_lt in B | apply Z.ltb_ge in B];
      (split; [|split; [|split; [|split]]]); try reflexivity;
      try discriminate.
    + intros r [= <-] H. lia.
    + intros r [= <-] _. reflexivity.
    + intros r [= <-] H. lia.
    + intros l Hl. exists record. auto.
  - simpl. (split; [|split; [|split; [|split]]]); try reflexivity;
      try discriminate.
    symmetry. apply delete_id. exact E.
Qed.

(** C5: [checkAndClear] changes nothing while the map holds fewer than
    [MaxSize] entries, and nothing while the clock is before [NextPurge];
    otherwise it drops exactly the entries whose deadline is before the
    scan's clock reading and sets [NextPurge] one second after the reading
    taken at the end. After such a purge, calls whose clock reading is
    within that second do not scan again, however many there are. *)
Theorem checkAndClear_rate_limited
    (now_check now_scan now_set : time.Time) storage :
  ((Z.of_nat (size (Records storage)) < MaxSize storage)%Z →
     checkAndClear now_check now_scan now_set storage = storage) ∧
  ((now_check < NextPurge storage)%Z →
     checkAndClear now_check now_scan now_set storage = storage) ∧
  ((MaxSize storage ≤ Z.of_nat (size (Records storage)))%Z →
   (NextPurge storage ≤ now_check)%Z →
   let storage' := checkAndClear now_check now_scan now_set storage in
   (∀ addr, Records storage' !! addr =
      match Records storage !! addr with
      | Some record =>
          if (deadline record <? now_scan)%Z then None else Some record
      | None => None
      end) ∧
   NextPurge storage' = (now_set + time.Second)%Z ∧
   Expires storage' = Expires storage ∧
   MaxSize storage' = MaxSize storage ∧
   (∀ t t1 t2, (t < now_set + time.Second)%Z →
      checkAndClear t t1 t2 storage' = storage') ∧
   (∀ calls,
      Forall (fun c => (call_now_check c < now_set + time.Second)%Z) calls →
      store_calls calls storage' = store_records calls storage')).
Proof.
  split; [|split].
  - intros H. unfold checkAndClear. apply Z.ltb_lt in H. rewrite H.
    reflexivity.
  - apply checkAndClear_idle.
  - intros Hsize Hnext storage'.
    assert (Hp : storage' = purge now_scan now_set storage).
    { unfold storage', checkAndClear, time.After.
      apply Z.ltb_ge in Hsize. rewrite Hsize.
      apply Z.ltb_ge in Hnext. rewrite Hnext. reflexivity. }
    rewrite Hp. repeat split.
    + intros addr. apply purge_lookup.
    + intros t t1 t2 Ht. apply checkAndClear_idle. exact Ht.
    + intros calls Hall. apply store_calls_idle. exact Hall.
Qed.

(** C8: [store] first assigns the entry of [addr] a record with deadline
    now plus [Expires] and the given data, whatever was there, leaving all
    other entries as they were, and then runs [checkAndClear] on the
    result. After the whole call another entry is either as before or was
    expired and purged. *)
Theorem store_overwrites_then_checks
    (now_store now_check now_scan now_set : time.Time) addr (d : slice)
    storage :
  store now_store now_check now_scan now_set addr d storage =
    checkAndClear now_check now_scan now_set
      (store_record now_store addr d storage) ∧
  Records (store_record now_store addr d storage) !! addr =
    Some {| deadline := (now_store + Expires storage)%Z; data := d |} ∧
  (∀ addr', addr' ≠ addr →
     Records (store_record now_store addr d storage) !! addr' =
       Records storage !! addr') ∧
  ((now_scan ≤ now_store + Expires storage)%Z →
     Records (store now_store now_check now_scan now_set addr d storage)
       !! addr =
     Some {| deadline := (now_store + Expires storage)%Z; data := d |}) ∧
  (∀ addr', addr' ≠ addr →
     let after :=
       Records (store now_store now_check now_scan now_set addr d storage)
         !! addr' in
     after = Records storage !! addr' ∨
     (after = None ∧
      ∃ record, Records storage !! addr' = Some record ∧
                (deadline record < now_scan)%Z)).
Proof.
  split; [reflexivity|]. split; [apply lookup_insert_eq|].
  split; [intros addr' Hne; apply lookup_insert_ne; congruence|].
  split.
  - apply store_lookup_self.
  - intros addr' Hne. apply store_lookup_other. exact Hne.
Qed.

End StorageFacts.

(** * Properties of the buffer operations *)
Section BufferFacts.

Implicit Types (buf cur l : list byte).

Lemma append_nil_snoc l b : append_nil (l ++ [b]) = Some (l ++ [b]).
Proof. destruct l; reflexivity. Qed.

(** What [readSlice] returns, and how it relates to the records of the
    stream: without an error the line is the first record with its
    delimiter; with one, the error is [io.EOF], the line is everything and
    holds no delimiter. *)
Lemma readSlice_cases buf :
  match readSlice newline buf with
  | (l, rest, None) =>
      (∃ pre, l = pre ++ [newline] ∧ newline ∉ pre) ∧
      buf = l ++ rest ∧
      ∀ cur, records_from cur buf = (cur ++ l) :: records_from [] rest ∧
             tail_from cur buf = tail_from [] rest
  | (l, rest, Some e) =>
      e = io_EOF ∧ l = buf ∧ rest = [] ∧ (newline ∉ buf) ∧
      ∀ cur, records_from cur buf = [] ∧ tail_from cur buf = cur ++ buf
  end.
Proof.
  induction buf as [|b buf IH]; simpl.
  - repeat split; try apply not_elem_of_nil.
    symmetry; apply app_nil_r.
  - destruct (Byte.eqb b newline) eqn:B.
    + apply Byte.byte_dec_bl in B. subst b. split; [|split].
      * exists []. split; [reflexivity | apply not_elem_of_nil].
      * reflexivity.
      * intros cur. split; reflexivity.
    + apply Byte.eqb_false in B.
      destruct (readSlice newline buf) as [[l rest] [e|]].
      * destruct IH as (-> & -> & -> & Hnl & Hcur).
        repeat split; try reflexivity.
        -- intros [?|?]%elem_of_cons; [congruence | contradiction].
        -- rewrite (proj1 (Hcur _)). reflexivity.
        -- rewrite (proj2 (Hcur _)), <- app_assoc. reflexivity.
      * destruct IH as ((pre & -> & Hpre) & -> & Hcur). split; [|split].
        -- exists (b :: pre). split; [reflexivity|].
           intros [?|?]%elem_of_cons; [congruence | contradiction].
        -- reflexivity.
        -- intros cur. rewrite (proj1 (Hcur _)), (proj2 (Hcur _)).
           rewrite <- app_assoc. split; reflexivity.
Qed.

Lemma records_from_clean cur l stream :
  newline ∉ l →
  records_from cur (l ++ stream) = records_from (cur ++ l) stream ∧
  tail_from cur (l ++ stream) = tail_from (cur ++ l) stream.
Proof.
  revert cur. induction l as [|b l IH]; intros cur Hl; simpl.
  - rewrite app_nil_r. split; reflexivity.
  - apply not_elem_of_cons in Hl as [Hb Hl].
    destruct (Byte.eqb b newline) eqn:B.
    + apply Byte.byte_dec_bl in B. congruence.
    + replace (cur ++ b :: l) with ((cur ++ [b]) ++ l)
        by (rewrite <- app_assoc; reflexivity).
      apply IH. exact Hl.
Qed.

Lemma records_from_app s1 s2 : ∀ cur,
  records_from cur (s1 ++ s2) =
    records_from cur s1 ++ records_from (tail_from cur s1) s2 ∧
  tail_from cur (s1 ++ s2) = tail_from (tail_from cur s1) s2.
Proof.
  induction s1 as [|b s1 IH]; intros cur; simpl.
  - split; reflexivity.
  - destruct (Byte.eqb b newline).
    + rewrite (proj1 (IH _)), (proj2 (IH _)). split; reflexivity.
    + apply IH.
Qed.

Lemma tail_from_clean stream : ∀ cur,
  newline ∉ cur → newline ∉ tail_from cur stream.
Proof.
  induction stream as [|b stream IH]; intros cur Hcur; simpl; [exact Hcur|].
  destruct (Byte.eqb b newline) eqn:B.
  - apply IH, not_elem_of_nil.
  - apply IH. apply Byte.eqb_false in B.
    rewrite elem_of_app, list_elem_of_singleton. intros [?|?]; congruence.
Qed.

Lemma records_from_terminated stream : ∀ cur,
  Forall (fun line => ∃ pre, line = pre ++ [newline])
    (records_from cur stream).
Proof.
  induction stream as [|b stream IH]; intros cur; simpl; [constructor|].
  destruct (Byte.eqb b newline) eqn:B; [|apply IH].
  apply Byte.byte_dec_bl in B. subst b. constructor; [|apply IH].
  exists cur. reflexivity.
Qed.

Lemma delimiters_clean l : newline ∉ l → delimiters l = 0.
Proof.
  unfold delimiters. induction l as [|b l IH]; intros H; [reflexivity|].
  apply not_elem_of_cons in H as [Hb Hl].
  rewrite filter_cons_False by congruence. apply IH. exact Hl.
Qed.

Lemma delimiters_app l1 l2 :
  delimiters (l1 ++ l2) = delimiters l1 + delimiters l2.
Proof. unfold delimiters. rewrite filter_app, length_app. reflexivity. Qed.

(** The records of a stream and its unterminated rest are the stream. *)
Lemma records_concat stream : ∀ cur,
  concat (records_from cur stream) ++ tail_from cur stream = cur ++ stream.
Proof.
  induction stream as [|b stream IH]; intros cur; simpl.
  - rewrite app_nil_r. reflexivity.
  - destruct (Byte.eqb b newline) eqn:B; simpl.
    + rewrite <- app_assoc, IH. simpl. rewrite <- app_assoc. reflexivity.
    + rewrite IH, <- app_assoc. reflexivity.
Qed.

End BufferFacts.

(** * Properties of the ingestion loop *)
Section ListenFacts.

Context {Points : Type}.
Variable ParseText : list byte → option Points.

Implicit Types (st : @ingest Points) (buf : list byte) (peer : string).

Local Abbreviation dispatch_all :=
  (foldl (fun st line => dispatch ParseText (Some line) st)).

(** The inner loop never runs out of fuel when given more than the length
    of the buffer: it dispatches the records of the buffer in order and
    ends on [io.EOF] with the unterminated rest as its line. *)
Lemma read_lines_result clk peer : ∀ fuel buf st,
  length buf < fuel →
  read_lines ParseText fuel clk peer buf st =
    Some (last_line clk peer (append_nil (tail_from [] buf)) io_EOF
            (dispatch_all st (records_from [] buf))).
Proof.
  induction fuel as [|fuel IH]; intros buf st Hlen; [lia|].
  simpl. unfold ReadBytes.
  pose proof (readSlice_cases buf) as Hcases.
  destruct (readSlice newline buf) as [[l rest] [e|]].
  - destruct Hcases as (-> & -> & -> & _ & Hcur).
    destruct (Hcur []) as [-> ->]. reflexivity.
  - destruct Hcases as ((pre & -> & _) & -> & Hcur).
    destruct (Hcur []) as [-> ->]. rewrite append_nil_snoc.
    rewrite IH; [reflexivity|].
    rewrite !length_app in Hlen. simpl in Hlen. lia.
Qed.

Lemma dispatch_all_lines st ls : lines (dispatch_all st ls) = lines st.
Proof.
  revert st. induction ls as [|l ls IH]; intros st; [reflexivity|].
  simpl. rewrite IH. unfold dispatch.
  destruct (0 <? _); [|reflexivity]. destruct (ParseText _); reflexivity.
Qed.

Lemma dispatch_all_flags st ls :
  finished (rcv (dispatch_all st ls)) = finished (rcv st) ∧
  conn_closed (rcv (dispatch_all st ls)) = conn_closed (rcv st) ∧
  incompleteReceived (rcv (dispatch_all st ls)) = incompleteReceived (rcv st).
Proof.
  revert st. induction ls as [|l ls IH]; intros st; [auto|].
  simpl. destruct (IH (dispatch ParseText (Some l) st)) as (-> & -> & ->).
  unfold dispatch.
  destruct (0 <? _); [|auto]. destruct (ParseText _); auto.
Qed.

Lemma dispatch_all_out st ls :
  Forall (fun line => ∃ pre, line = pre ++ [newline]) ls →
  out (rcv (dispatch_all st ls)) = out (rcv st) ++ omap ParseText ls ∧
  parse_calls (dispatch_all st ls) = parse_calls st ++ ls.
Proof.
  revert st. induction ls as [|l ls IH]; intros st Hall.
  - simpl. rewrite !app_nil_r. auto.
  - inversion Hall as [|? ? (pre & ->) Hrest]; subst.
    simpl foldl. destruct (IH (dispatch ParseText (Some (pre ++ [newline])) st)
                             Hrest) as [-> ->].
    unfold dispatch. simpl len. rewrite length_app. simpl.
    replace (0 <? length pre + 1) with true
      by (symmetry; apply Nat.ltb_lt; lia).
    destruct (ParseText (pre ++ [newline])) as [msg|]; simpl;
      rewrite <- !app_assoc; auto.
Qed.

Lemma last_line_EOF_out clk peer line st :
  out (rcv (last_line clk peer line io_EOF st)) = out (rcv st) ∧
  parse_calls (last_line clk peer line io_EOF st) = parse_calls st ∧
  finished (rcv (last_line clk peer line io_EOF st)) = finished (rcv st) ∧
  metricsReceived (rcv (last_line clk peer line io_EOF st)) =
    metricsReceived (rcv st) ∧
  errors (rcv (last_line clk peer line io_EOF st)) = errors (rcv st).
Proof. unfold last_line. destruct (0 <? len line); auto. Qed.

Lemma last_line_EOF_lines clk peer l st :
  lines (last_line clk peer (append_nil l) io_EOF st) =
    match l with
    | [] => lines st
    | _ :: _ =>
        store (now_store clk) (now_check clk) (now_scan clk) (now_set clk)
          peer (Some l) (lines st)
    end.
Proof. destruct l; reflexivity. Qed.

(** One turn on a datagram, in closed form. *)
Lemma receive_result clk payload peer st :
  receive ParseText clk payload peer st =
    let popped := pop (now_pop clk) peer (lines st) in
    let buf := combine popped.1 payload in
    Some (last_line clk peer (append_nil (tail_from [] buf)) io_EOF
            (dispatch_all
               {| rcv := rcv st; lines := popped.2;
                  parse_calls := parse_calls st |}
               (records_from [] buf))).
Proof.
  unfold receive. destruct (pop _ _ _) as [prev lines']. cbn [fst snd].
  apply read_lines_result. lia.
Qed.

Lemma receive_out clk payload peer st :
  ∃ st', receive ParseText clk payload peer st = Some st' ∧
    let popped := pop (now_pop clk) peer (lines st) in
    let buf := combine popped.1 payload in
    out (rcv st') = out (rcv st) ++ omap ParseText (records_from [] buf) ∧
    parse_calls st' = parse_calls st ++ records_from [] buf ∧
    finished (rcv st') = finished (rcv st) ∧
    lines st' =
      match tail_from [] buf with
      | [] => popped.2
      | _ :: _ =>
          store (now_store clk) (now_check clk) (now_scan clk) (now_set clk)
            peer (Some (tail_from [] buf)) popped.2
      end.
Proof.
  eexists. split; [apply receive_result|]. intros popped buf.
  destruct (last_line_EOF_out clk peer (append_nil (tail_from [] buf))
              (dispatch_all {| rcv := rcv st; lines := popped.2;
                               parse_calls := parse_calls st |}
                 (records_from [] buf))) as (Ho & Hp & Hf & _).
  fold popped. fold buf. rewrite Ho, Hp, Hf, last_line_EOF_lines.
  destruct (dispatch_all_out {| rcv := rcv st; lines := popped.2;
                                parse_calls := parse_calls st |}
              (records_from [] buf) (records_from_terminated buf []))
    as [-> ->].
  rewrite dispatch_all_lines.
  destruct (dispatch_all_flags {| rcv := rcv st; lines := popped.2;
                                  parse_calls := parse_calls st |}
              (records_from [] buf)) as (-> & _).
  simpl. auto.
Qed.


Lemma combine_pending t payload :
  newline ∉ t →
  records_from [] (combine (append_nil t) payload) = records_from t payload ∧
  tail_from [] (combine (append_nil t) payload) = tail_from t payload.
Proof.
  intros Ht. destruct t as [|b t]; [split; reflexivity|].
  simpl combine. unfold NewBuffer_Write.
  apply (records_from_clean [] (b :: t) payload Ht).
Qed.

(** The loop on the datagrams of one sender whose pending bytes are [t]:
    it forwards what the records of [t] followed by all payloads parse to. *)
Lemma Listen_loop_from_peer peer : ∀ (ds : list (clock * list byte)) st t,
  newline ∉ t →
  match ds with
  | [] => True
  | d :: _ => (pop (now_pop d.1) peer (lines st)).1 = append_nil t
  end →
  clock_forward ds →
  in_time (Expires (lines st)) ds →
  ∃ st', Listen_loop ParseText (from_peer peer ds) st = Some st' ∧
    out (rcv st') =
      out (rcv st) ++ omap ParseText (records_from t (payloads ds)) ∧
    parse_calls st' = parse_calls st ++ records_from t (payloads ds).
Proof.
  induction ds as [|[clk payload] ds IH]; intros st t Ht Hpre Hfwd Htime.
  - exists st. simpl. rewrite !app_nil_r. auto.
  - simpl in Hpre.
    destruct (receive_out clk payload peer st)
      as (st1 & Hrecv & Hout & Hcalls & _ & Hlines).
    cbv zeta in Hout, Hcalls, Hlines. rewrite Hpre in Hout, Hcalls, Hlines.
    destruct (combine_pending t payload Ht) as [Hrec Htail].
    rewrite Hrec in Hout, Hcalls. rewrite Htail in Hlines.
    set (t1 := tail_from t payload) in *.
    assert (Ht1 : newline ∉ t1) by (apply tail_from_clean; exact Ht).
    assert (Hexp : Expires (lines st1) = Expires (lines st)).
    { rewrite Hlines. destruct t1; [apply pop_Expires|].
      rewrite store_Expires. apply pop_Expires. }
    destruct Hfwd as [Hfwd1 Hfwd]. destruct Htime as [Htime1 Htime].
    destruct (IH st1 t1 Ht1) as (st' & Hloop & Hout' & Hcalls').
    + destruct ds as [|[clk2 payload2] ds]; [exact I|].
      cbn [fst snd] in Hfwd1, Htime1 |- *.
      rewrite Hlines. destruct t1 as [|b t1].
      * apply pop_miss, pop_lookup_self.
      * assert (Hfresh : (now_scan clk ≤ now_store clk +
                   Expires (pop (now_pop clk) peer (lines st)).2)%Z)
          by (rewrite pop_Expires; lia).
        rewrite (pop_hit _ _ _ _
                   (store_lookup_self _ (now_check clk) _ (now_set clk) peer
                      (Some (b :: t1)) _ Hfresh));
          [reflexivity|].
        simpl. rewrite pop_Expires. lia.
    + exact Hfwd.
    + rewrite Hexp. exact Htime.
    + exists st'. split; [|split].
      * simpl. unfold from_peer in Hloop. rewrite Hrecv. simpl. exact Hloop.
      * rewrite Hout', Hout. unfold payloads. simpl.
        rewrite (proj1 (records_from_app payload _ t)), omap_app.
        rewrite <- app_assoc. reflexivity.
      * rewrite Hcalls', Hcalls. unfold payloads. simpl.
        rewrite (proj1 (records_from_app payload _ t)), <- app_assoc.
        reflexivity.
Qed.

(** C1: the datagrams of one sender, cut anywhere, make the loop forward
    the same messages in the same order as the whole stream in a single
    datagram, namely what the newline-terminated records of the stream
    parse to, when each datagram is popped no later than the deadline of
    what the turn before stored and the clock does not run backwards. *)
Theorem reassembly_of_split_stream peer (ds : list (clock * list byte))
    st (clk0 : clock) :
  Records (lines st) !! peer = None →
  clock_forward ds →
  in_time (Expires (lines st)) ds →
  ∃ st_split st_whole,
    Listen_loop ParseText (from_peer peer ds) st = Some st_split ∧
    Listen_loop ParseText [Datagram clk0 (payloads ds) peer] st
      = Some st_whole ∧
    out (rcv st_split) = out (rcv st_whole) ∧
    out (rcv st_split) =
      out (rcv st) ++ omap ParseText (stream_records (payloads ds)).
Proof.
  intros Hnone Hfwd Htime.
  destruct (Listen_loop_from_peer peer ds st [] (not_elem_of_nil _))
    as (st_split & Hsplit & Hout & _); [| exact Hfwd | exact Htime |].
  { destruct ds; [exact I|]. apply pop_miss. exact Hnone. }
  destruct (Listen_loop_from_peer peer [(clk0, payloads ds)] st []
              (not_elem_of_nil _))
    as (st_whole & Hwhole & Hout' & _); simpl; auto.
  { apply pop_miss. exact Hnone. }
  exists st_split, st_whole. split; [exact Hsplit|]. split; [exact Hwhole|].
  unfold payloads in Hout'. simpl in Hout'. rewrite app_nil_r in Hout'.
  fold (payloads ds) in Hout'.
  split; [congruence | exact Hout].
Qed.

(** The loop returns on every sequence of reads, and keeps two facts: no
    stored fragment holds a delimiter, and every argument of the parser
    ends in one. *)
Lemma Listen_loop_invariant : ∀ (reads : list read) st,
  fragments_clean (lines st) →
  Forall (fun line => ∃ pre, line = pre ++ [newline]) (parse_calls st) →
  ∃ st', Listen_loop ParseText reads st = Some st' ∧
    fragments_clean (lines st') ∧
    Forall (fun line => ∃ pre, line = pre ++ [newline]) (parse_calls st').
Proof.
  induction reads as [|r reads IH]; intros st Hclean Hcalls.
  - exists st. auto.
  - destruct r as [clk payload peer|msg]; simpl.
    + destruct (receive_out clk payload peer st)
        as (st1 & -> & _ & Hc1 & _ & Hl1). cbv zeta in Hc1, Hl1. simpl.
      apply IH.
      * rewrite Hl1.
        destruct (pop_clean (now_pop clk) peer (lines st) Hclean)
          as [Hpop Hprev].
        destruct (tail_from [] _) as [|b t] eqn:Et; [exact Hpop|].
        apply store_clean; [exact Hpop|]. simpl. rewrite <- Et.
        apply tail_from_clean, not_elem_of_nil.
      * rewrite Hc1. apply Forall_app. split; [exact Hcalls|].
        apply records_from_terminated.
    + destruct (Contains msg closed_message).
      * eexists. split; [reflexivity|]. auto.
      * apply IH; assumption.
Qed.

(** C3: a datagram holding a single delimiter byte, received by a fresh
    loop, is handed to the parser as the one-byte line and moves a counter:
    [errors] when the parser rejects it, [metricsReceived] (with a message
    forwarded) when it accepts it. *)
Theorem lone_delimiter_reaches_parser (now0 : time.Time) (clk : clock)
    (peer : string) :
  ∃ st, Listen ParseText now0 [Datagram clk [newline] peer] = Some st ∧
    parse_calls st = [[newline]] ∧
    match ParseText [newline] with
    | None =>
        errors (rcv st) = 1%Z ∧ metricsReceived (rcv st) = 0%Z ∧
        out (rcv st) = []
    | Some msg =>
        errors (rcv st) = 0%Z ∧ metricsReceived (rcv st) = 1%Z ∧
        out (rcv st) = [msg]
    end.
Proof.
  unfold Listen. cbn [Listen_loop Listen_turn]. rewrite receive_result.
  cbv zeta. unfold pop. cbn [lines newIncompleteStorage Records].
  rewrite lookup_empty. cbn. unfold dispatch. cbn.
  destruct (ParseText [newline]) as [msg|]; cbn;
    eexists; (split; [reflexivity|]); cbn; auto.
Qed.

(** C6: a read error whose message contains the closed-connection text
    ends the loop with the counters as they were and [finished] closed,
    whatever reads would follow; any other read error adds one to [errors],
    touches nothing else, and the loop goes on with the next read. *)
Theorem read_failure_handling (msg : string) st (reads : list read) :
  (Contains msg closed_message = true →
     Listen_turn ParseText (Failure msg) st = Some Break ∧
     ∃ st', Listen_loop ParseText (Failure msg :: reads) st = Some st' ∧
       finished (rcv st') = true ∧
       errors (rcv st') = errors (rcv st) ∧
       metricsReceived (rcv st') = metricsReceived (rcv st) ∧
       incompleteReceived (rcv st') = incompleteReceived (rcv st) ∧
       out (rcv st') = out (rcv st)) ∧
  (Contains msg closed_message = false →
     ∃ st1, Listen_turn ParseText (Failure msg) st = Some (Continue st1) ∧
       errors (rcv st1) = ((errors (rcv st) + 1) mod 2 ^ 32)%Z ∧
       metricsReceived (rcv st1) = metricsReceived (rcv st) ∧
       incompleteReceived (rcv st1) = incompleteReceived (rcv st) ∧
       out (rcv st1) = out (rcv st) ∧
       finished (rcv st1) = finished (rcv st) ∧
       lines st1 = lines st ∧
       Listen_loop ParseText (Failure msg :: reads) st =
         Listen_loop ParseText reads st1).
Proof.
  split; intros H; simpl; rewrite H.
  - split; [reflexivity|]. eexists. split; [reflexivity|]. simpl. auto 10.
  - eexists. split; [reflexivity|]. simpl. auto 10.
Qed.

(** C9: whatever the loop has read, no fragment in the storage holds a
    delimiter byte, so the buffer of the next turn, pending bytes followed
    by the new datagram, has exactly the delimiters of the datagram. *)
Theorem stored_fragments_hold_no_delimiter (now0 : time.Time)
    (reads : list read) :
  ∃ st, Listen ParseText now0 reads = Some st ∧
    fragments_clean (lines st) ∧
    ∀ (now : time.Time) (peer : string) (payload : list byte),
      delimiters (combine (pop now peer (lines st)).1 payload) =
        delimiters payload.
Proof.
  destruct (Listen_loop_invariant reads
              {| rcv := NewUDP; lines := newIncompleteStorage now0;
                 parse_calls := [] |})
    as (st & Hrun & Hclean & _).
  - intros addr record Hr. simpl in Hr. rewrite lookup_empty in Hr.
    discriminate.
  - constructor.
  - exists st. split; [exact Hrun|]. split; [exact Hclean|].
    intros now peer payload.
    destruct (pop_clean now peer (lines st) Hclean) as [_ Hprev].
    destruct (pop now peer (lines st)).1 as [p|]; [|reflexivity].
    simpl. unfold NewBuffer_Write.
    rewrite delimiters_app, (delimiters_clean p Hprev). reflexivity.
Qed.

(** C10: every line [ReadBytes] returns without an error is a record of
    the buffer with its delimiter still at the end, so it passes the test
    [len(line) > 0], and it is this slice, delimiter included, that the
    loop hands to the parser: the turn of the inner loop goes on with
    [dispatch] of that line, which records the call and sends or counts
    by the parser's answer on it. Over a whole turn the parser is called
    on every record of the combined buffer, in order, each ending in the
    delimiter, and only the rest without a delimiter is not parsed; and
    whatever the loop has read, every argument the parser was called with
    ends in the delimiter. *)
Theorem parsed_lines_keep_delimiter (now0 : time.Time)
    (reads : list read) :
  (∀ buf line rest, ReadBytes newline buf = (line, rest, None) →
     (0 <? len line) = true ∧
     ∃ pre, line = Some (pre ++ [newline]) ∧ (newline ∉ pre) ∧
       buf = pre ++ [newline] ++ rest ∧
       (∀ fuel clk peer st,
          read_lines ParseText (S fuel) clk peer buf st =
            read_lines ParseText fuel clk peer rest
              (dispatch ParseText line st)) ∧
       ∀ st,
         parse_calls (dispatch ParseText line st)
           = parse_calls st ++ [pre ++ [newline]] ∧
         match ParseText (pre ++ [newline]) with
         | Some msg =>
             out (rcv (dispatch ParseText line st)) = out (rcv st) ++ [msg] ∧
             metricsReceived (rcv (dispatch ParseText line st))
               = atomic.AddUint32 (metricsReceived (rcv st)) 1 ∧
             errors (rcv (dispatch ParseText line st)) = errors (rcv st)
         | None =>
             out (rcv (dispatch ParseText line st)) = out (rcv st) ∧
             metricsReceived (rcv (dispatch ParseText line st))
               = metricsReceived (rcv st) ∧
             errors (rcv (dispatch ParseText line st))
               = atomic.AddUint32 (errors (rcv st)) 1
         end) ∧
  (∀ clk payload peer st,
     ∃ st' ls tail,
       receive ParseText clk payload peer st = Some st' ∧
       parse_calls st' = parse_calls st ++ ls ∧
       concat ls ++ tail
         = combine (pop (now_pop clk) peer (lines st)).1 payload ∧
       Forall (fun line => ∃ pre, line = pre ++ [newline]) ls ∧
       (newline ∉ tail)) ∧
  ∃ st, Listen ParseText now0 reads = Some st ∧
    Forall (fun line => ∃ pre, line = pre ++ [newline]) (parse_calls st).
Proof.
  split; [|split].
  - intros buf line rest HRB.
    assert (Hshape : ∃ pre, line = Some (pre ++ [newline]) ∧
              (newline ∉ pre) ∧ buf = pre ++ [newline] ++ rest).
    { revert HRB. unfold ReadBytes.
      pose proof (readSlice_cases buf) as Hcases.
      destruct (readSlice newline buf) as [[l rest'] [e|]]; [discriminate|].
      destruct Hcases as ((pre & -> & Hpre) & Hbuf & _).
      rewrite append_nil_snoc. intros [= <- <-]. exists pre.
      rewrite Hbuf, <- app_assoc. auto. }
    destruct Hshape as (pre & -> & Hpre & Hbuf).
    assert (Hlen : (0 <? len (Some (pre ++ [newline]))) = true).
    { simpl. rewrite length_app. simpl. apply Nat.ltb_lt. lia. }
    split; [exact Hlen|]. exists pre.
    split; [reflexivity|]. split; [exact Hpre|]. split; [exact Hbuf|].
    split.
    + intros fuel clk peer st. cbn [read_lines]. rewrite HRB. reflexivity.
    + intros st. unfold dispatch. rewrite Hlen. simpl slice_bytes.
      destruct (ParseText (pre ++ [newline])); simpl; auto.
  - intros clk payload peer st.
    destruct (receive_out clk payload peer st)
      as (st' & Hrecv & _ & Hcalls & _).
    cbv zeta in Hcalls.
    exists st',
      (records_from []
         (combine (pop (now_pop clk) peer (lines st)).1 payload)),
      (tail_from []
         (combine (pop (now_pop clk) peer (lines st)).1 payload)).
    split; [exact Hrecv|]. split; [exact Hcalls|].
    split; [apply (records_concat _ [])|].
    split; [apply records_from_terminated|].
    apply tail_from_clean, not_elem_of_nil.
  - destruct (Listen_loop_invariant reads
                {| rcv := NewUDP; lines := newIncompleteStorage now0;
                   parse_calls := [] |})
      as (st & Hrun & _ & Hcalls).
    + intros addr record Hr. simpl in Hr. rewrite lookup_empty in Hr.
      discriminate.
    + constructor.
    + exists st. auto.
Qed.

(** The turn on a datagram of another sender keeps what is pending for
    [peer], up to expiry. *)
Lemma pending_other_turn peer p clk payload st st1 t stored tnow :
  p ≠ peer →
  receive ParseText clk payload p st = Some st1 →
  (tnow ≤ now_scan clk)%Z → (now_scan clk ≤ now_set clk)%Z →
  pending peer t stored tnow (lines st) →
  pending peer t stored (now_set clk) (lines st1) ∧
  Expires (lines st1) = Expires (lines st).
Proof.
  intros Hne Hrecv Htnow Hset Hpend.
  destruct (receive_out clk payload p st) as (st1' & Hrecv' & _ & _ & _ & Hl).
  rewrite Hrecv in Hrecv'. injection Hrecv' as <-. cbv zeta in Hl.
  set (popped := (pop (now_pop clk) p (lines st)).2) in *.
  assert (Hpop : Records popped !! peer = Records (lines st) !! peer)
    by (apply pop_lookup_other; congruence).
  assert (Hexp : Expires popped = Expires (lines st)) by apply pop_Expires.
  destruct (tail_from [] _) as [|b t1].
  - rewrite Hl. split; [|exact Hexp].
    unfold pending. rewrite Hpop, Hexp.
    destruct Hpend as [?|(Ht & ts & Hs & [?|?])]; [left; auto| |];
      right; (split; [exact Ht|]); exists ts; (split; [exact Hs|]);
      [left; auto | right; lia].
  - rewrite Hl, store_Expires. split; [|exact Hexp].
    unfold pending. rewrite store_Expires, Hexp.
    destruct (store_lookup_other (now_store clk) (now_check clk)
                (now_scan clk) (now_set clk) p peer (Some (b :: t1)) popped)
      as [Hsame|(Hgone & record & Hrec & Hold)]; [congruence| |].
    + rewrite Hsame, Hpop.
      destruct Hpend as [?|(Ht & ts & Hs & [?|?])]; [left; auto| |];
        right; (split; [exact Ht|]); exists ts; (split; [exact Hs|]);
        [left; auto | right; lia].
    + rewrite Hpop in Hrec.
      destruct Hpend as [[_ Hn]|(Ht & ts & Hs & [Hin|?])]; [congruence| |];
        right; (split; [exact Ht|]); exists ts; (split; [exact Hs|]);
        right; [|lia].
      rewrite Hin in Hrec. injection Hrec as <-. simpl in Hold. lia.
Qed.

(** Reassembly with other senders in between: on any sequence of reads
    that does not end the loop, with a clock that never runs backwards
    and the datagrams of [peer] in time, what the loop forwards during the
    turns of [peer] is what the records of the stream of [peer] parse to. *)
Lemma forwarded_for_stream peer : ∀ (reads : list read) st t stored tnow,
  newline ∉ t →
  pending peer t stored tnow (lines st) →
  no_closure reads →
  clock_sorted tnow reads →
  peer_in_time peer (Expires (lines st)) stored reads →
  forwarded_for ParseText peer reads st =
    omap ParseText (records_from t (stream_of peer reads)).
Proof.
  induction reads as [|r reads IH];
    intros st t stored tnow Ht Hpend Hnc Hclock Htime; [reflexivity|].
  inversion Hnc as [|? ? Hr Hnc']; subst.
  destruct r as [clk payload p|msg].
  - destruct Hclock as ((Hc1 & Hc2 & Hc3 & Hc4 & Hc5) & Hclock).
    simpl in Htime. simpl forwarded_for. simpl stream_of.
    destruct (receive_out clk payload p st)
      as (st1 & Hrecv & Hout & _ & _ & Hlines).
    rewrite Hrecv. simpl. destruct (decide (p = peer)) as [->|Hne].
    + destruct Htime as [Htime1 Htime].
      assert (Hprev : (pop (now_pop clk) peer (lines st)).1 = append_nil t).
      { destruct Hpend as [[-> Hn]|(Hne & ts & -> & [Hin|Hold])].
        - apply pop_miss. exact Hn.
        - rewrite (pop_hit _ _ _ _ Hin); [|simpl; lia].
          destruct t; [congruence | reflexivity].
        - lia. }
      cbv zeta in Hout, Hlines. rewrite Hprev in Hout, Hlines.
      destruct (combine_pending t payload Ht) as [Hrec Htail].
      rewrite Hrec in Hout. rewrite Htail in Hlines.
      rewrite Hout, drop_app_length.
      rewrite (proj1 (records_from_app payload _ t)), omap_app. f_equal.
      assert (Hexp : Expires (lines st1) = Expires (lines st)).
      { rewrite Hlines. destruct (tail_from t payload); [apply pop_Expires|].
        rewrite store_Expires. apply pop_Expires. }
      apply (IH st1 (tail_from t payload) (Some (now_store clk))
               (now_set clk)); auto.
      * apply tail_from_clean. exact Ht.
      * rewrite Hlines. destruct (tail_from t payload) as [|b t1] eqn:Et.
        -- left. split; [reflexivity | apply pop_lookup_self].
        -- right. split; [congruence|]. exists (now_store clk).
           split; [reflexivity|]. rewrite store_Expires.
           destruct (store_lookup_self_or_purged (now_store clk)
                       (now_check clk) (now_scan clk) (now_set clk) peer
                       (Some (b :: t1))
                       (pop (now_pop clk) peer (lines st)).2) as [H|H].
           ++ left. exact H.
           ++ right. lia.
      * rewrite Hexp. exact Htime.
    + destruct (pending_other_turn peer p clk payload st st1 t stored tnow)
        as [Hpend1 Hexp]; auto; try lia.
      apply (IH st1 t stored (now_set clk)); auto.
      rewrite Hexp. exact Htime.
  - simpl forwarded_for. rewrite Hr. simpl.
    apply (IH _ t stored tnow); auto.
Qed.

(** X15: reassembly with other senders in between. On reads that do not
    end the loop, from a storage that holds nothing for [peer], with a
    clock that never runs backwards and each datagram of [peer] popped no
    later than [Expires] after the [store] reading of its previous one,
    the messages sent during the turns of [peer] are what the
    newline-terminated records of all its bytes parse to, in order:
    datagrams, stores and purges of other senders do not disturb them. *)
Corollary reassembly_among_other_senders peer (reads : list read) st
    (tnow : time.Time) :
  Records (lines st) !! peer = None →
  no_closure reads →
  clock_sorted tnow reads →
  peer_in_time peer (Expires (lines st)) None reads →
  forwarded_for ParseText peer reads st =
    omap ParseText (stream_records (stream_of peer reads)).
Proof.
  intros Hnone Hnc Hclock Htime.
  apply (forwarded_for_stream peer reads st [] None tnow); auto.
  - apply not_elem_of_nil.
  - left. auto.
Qed.

End ListenFacts.

(** * Properties of the goroutines *)
Import goroutines.

Section GoroutineFacts.

Context {Points : Type}.

Implicit Types (s : @system Points) (tr : list (@action Points))
  (c : counter).

Lemma exec_snoc tr a s0 s' :
  exec (tr ++ [a]) s0 = Some s' ↔
  ∃ s, exec tr s0 = Some s ∧ step a s = Some s'.
Proof.
  revert s0. induction tr as [|b tr IH]; intros s0; simpl.
  - destruct (step a s0) as [s1|] eqn:E; split.
    + intros [= <-]. eauto.
    + intros (s & [= <-] & H). congruence.
    + discriminate.
    + intros (s & [= <-] & H). congruence.
  - destruct (step b s0) as [s1|]; [apply IH|].
    split; [discriminate | intros (s & H & _); discriminate].
Qed.

Lemma issued_snoc c tr a :
  issued c (tr ++ [a]) =
    (issued c tr +
     match a with
     | ingest_count c' => if decide (c = c') then 1 else 0
     | _ => 0
     end)%Z.
Proof.
  induction tr as [|b tr IH]; simpl.
  - destruct a; lia.
  - destruct b; rewrite IH; lia.
Qed.

Lemma emitted_snoc c (o : list (@sent Points)) x :
  emitted c (o ++ [x]) =
    (emitted c o +
     match x with
     | sent_stat c' v => if decide (c = c') then v else 0
     | sent_msg _ => 0
     end)%Z.
Proof.
  induction o as [|y o IH]; simpl.
  - destruct x; lia.
  - destruct y; rewrite IH; lia.
Qed.

Lemma issued_nonneg c tr : (0 ≤ issued c tr)%Z.
Proof.
  induction tr as [|a tr IH]; simpl; [lia|].
  destruct a; try exact IH. case_decide; lia.
Qed.

Lemma in_flight_after_stat c c' : in_flight c (after_stat c') = 0%Z.
Proof. destruct c'; reflexivity. Qed.

Lemma AddUint32_range x d :
  (0 ≤ atomic.AddUint32 x d < 2 ^ 32)%Z.
Proof. unfold atomic.AddUint32, atomic.wrap. apply Z.mod_pos_bound. lia. Qed.

Local Ltac step_cases H :=
  match type of H with
  | step ?a _ = Some _ =>
      destruct a; simpl in H; repeat case_match; simplify_eq; simpl
  end.

Local Ltac wrap_arith :=
  unfold atomic.AddUint32, atomic.neg, atomic.wrap in *;
  Z.div_mod_to_equations; lia.

(** One step keeps the books balanced modulo [2^32]: what was emitted,
    what is in flight and what the counter holds add up to the increments
    issued. *)
Lemma step_conserves a s s' c (n : Z) :
  step a s = Some s' →
  (0 ≤ ctr s c < 2 ^ 32)%Z →
  ((emitted c (chan_out s) + in_flight c (rpc s) + ctr s c) mod 2 ^ 32
   = n mod 2 ^ 32)%Z →
  (0 ≤ ctr s' c < 2 ^ 32)%Z ∧
  ((emitted c (chan_out s') + in_flight c (rpc s') + ctr s' c) mod 2 ^ 32
   = (n + match a with
          | ingest_count c' => if decide (c = c') then 1 else 0
          | _ => 0
          end) mod 2 ^ 32)%Z.
Proof.
  intros Hstep Hrange Hsum.
  step_cases Hstep; rewrite ?emitted_snoc, ?in_flight_after_stat;
    unfold upd; simpl in *; repeat case_decide; simplify_eq;
    rewrite ?Z.add_0_r in *;
    try (split; [first [exact Hrange | apply AddUint32_range]|]);
    try exact Hsum; try wrap_arith.
Qed.

Lemma step_balanced a s s' c (n : Z) :
  step a s = Some s' →
  (n + match a with
       | ingest_count c' => if decide (c = c') then 1 else 0
       | _ => 0
       end < 2 ^ 32)%Z →
  balanced c n s →
  balanced c (n + match a with
                  | ingest_count c' => if decide (c = c') then 1 else 0
                  | _ => 0
                  end) s'.
Proof.
  intros Hstep Hn (HE & HF & HC & Hsum & Hv). unfold balanced.
  remember (rpc s) as p eqn:Hp.
  destruct a; simpl in Hstep; rewrite <- ?Hp in Hstep;
    repeat case_match; simplify_eq; simpl; rewrite <- ?Hp;
    rewrite ?emitted_snoc, ?in_flight_after_stat;
    unfold upd; simpl in *; repeat case_decide; simplify_eq;
    try congruence;
    try match goal with
        | Hp : ?x = rpc ?s, H2 : rpc ?s = ?y |- _ =>
            assert (x = y) by congruence; clear H2; simplify_eq
        end;
    split_and!; try exact I; try lia; try wrap_arith;
    intros; simplify_eq; try (specialize (Hv eq_refl));
    try lia; try wrap_arith;
    match goal with
    | H : after_stat ?c = _ |- _ => destruct c; discriminate
    end.
Qed.

(** The same step by step when the increment itself does not wrap,
    however many increments came before. *)
Lemma step_steady a s s' c (n : Z) :
  step a s = Some s' →
  (0 ≤ ctr s c < 2 ^ 32)%Z →
  match a with
  | ingest_count c' => c = c' → (ctr s c + 1 < 2 ^ 32)%Z
  | _ => True
  end →
  balanced c n s →
  balanced c (n + match a with
                  | ingest_count c' => if decide (c = c') then 1 else 0
                  | _ => 0
                  end) s'.
Proof.
  intros Hstep Hrange Hw (HE & HF & HC & Hsum & Hv). unfold balanced.
  remember (rpc s) as p eqn:Hp.
  destruct a; simpl in Hstep; rewrite <- ?Hp in Hstep;
    repeat case_match; simplify_eq; simpl; rewrite <- ?Hp;
    rewrite ?emitted_snoc, ?in_flight_after_stat;
    unfold upd; simpl in *; repeat case_decide; simplify_eq;
    try congruence;
    try match goal with
        | Hp : ?x = rpc ?s, H2 : rpc ?s = ?y |- _ =>
            assert (x = y) by congruence; clear H2; simplify_eq
        end;
    try (specialize (Hw eq_refl));
    split_and!; try exact I; try lia; try wrap_arith;
    intros; simplify_eq; try (specialize (Hv eq_refl));
    try lia; try wrap_arith;
    match goal with
    | H : after_stat ?c = _ |- _ => destruct c; discriminate
    end.
Qed.

Lemma no_wrap_snoc c tr a : ∀ s0,
  no_wrap c (tr ++ [a]) s0 →
  no_wrap c tr s0 ∧
  ∀ s, exec tr s0 = Some s →
    match a with
    | ingest_count c' => c = c' → (ctr s c + 1 < 2 ^ 32)%Z
    | _ => True
    end.
Proof.
  induction tr as [|b tr IH]; intros s0 Hnw; simpl in *.
  - split; [exact I|]. intros s [= <-]. apply Hnw.
  - destruct Hnw as [Hb Hrest]. destruct (step b s0) as [s1|].
    + destruct (IH s1 Hrest) as [H1 H2]. auto.
    + split; [auto|]. intros s Hs. discriminate Hs.
Qed.

Lemma exec_conserves c : ∀ tr s,
  exec tr init = Some s →
  (0 ≤ ctr s c < 2 ^ 32)%Z ∧
  ((emitted c (chan_out s) + in_flight c (rpc s) + ctr s c) mod 2 ^ 32
   = issued c tr mod 2 ^ 32)%Z.
Proof.
  induction tr as [|a tr IH] using rev_ind; intros s Hexec.
  - injection Hexec as <-. simpl. split; [lia | reflexivity].
  - apply exec_snoc in Hexec as (s0 & Hexec & Hstep).
    destruct (IH s0 Hexec) as [Hrange Hsum].
    rewrite issued_snoc. exact (step_conserves a s0 s c _ Hstep Hrange Hsum).
Qed.

Lemma exec_balanced c : ∀ tr s,
  exec tr init = Some s →
  (issued c tr < 2 ^ 32)%Z →
  balanced c (issued c tr) s.
Proof.
  induction tr as [|a tr IH] using rev_ind; intros s Hexec Hn.
  - injection Hexec as <-. unfold balanced. simpl. lia.
  - apply exec_snoc in Hexec as (s0 & Hexec & Hstep).
    rewrite issued_snoc in Hn |- *.
    apply (step_balanced a s0 s c _ Hstep Hn). apply IH; [exact Hexec|].
    pose proof (issued_nonneg c tr).
    destruct a; try lia. case_decide; lia.
Qed.

Lemma exec_steady c : ∀ tr s,
  exec tr init = Some s →
  no_wrap c tr init →
  balanced c (issued c tr) s.
Proof.
  induction tr as [|a tr IH] using rev_ind; intros s Hexec Hnw.
  - injection Hexec as <-. unfold balanced. simpl. lia.
  - apply exec_snoc in Hexec as (s0 & Hexec & Hstep).
    apply no_wrap_snoc in Hnw as [Hnw Hlast].
    rewrite issued_snoc.
    apply (step_steady a s0 s c _ Hstep).
    + apply (exec_conserves c tr s0 Hexec).
    + exact (Hlast s0 Hexec).
    + exact (IH s0 Hexec Hnw).
Qed.

(** C2: in every interleaving, for each counter, the values emitted so
    far, the value taken off the counter but not yet emitted, and what the
    counter holds add up to the number of increments issued: exactly, for
    any number of increments, as long as no single increment wraps the
    32-bit counter (in particular while fewer than [2^32] were issued in
    all), and modulo [2^32] in every case. Between two rounds of the
    reporter nothing is in flight. The reset is an atomic add of the
    negated value loaded before, so the counter keeps the increments that
    landed after the load. *)
Theorem increments_conserved tr s c :
  exec tr init = Some s →
  ((emitted c (chan_out s) + in_flight c (rpc s) + ctr s c) mod 2 ^ 32
   = issued c tr mod 2 ^ 32)%Z ∧
  (no_wrap c tr init →
     (emitted c (chan_out s) + in_flight c (rpc s) + ctr s c
      = issued c tr)%Z) ∧
  ((issued c tr < 2 ^ 32)%Z →
     (emitted c (chan_out s) + in_flight c (rpc s) + ctr s c
      = issued c tr)%Z) ∧
  (reporter_idle (rpc s) = true → in_flight c (rpc s) = 0%Z) ∧
  (∀ v s', rpc s = r_add c v → step report_add s = Some s' →
     ctr s' c = ((ctr s c - v) mod 2 ^ 32)%Z ∧ rpc s' = r_stat c v).
Proof.
  intros Hexec. split; [|split; [|split; [|split]]].
  - apply (exec_conserves c tr s Hexec).
  - intros Hnw. destruct (exec_steady c tr s Hexec Hnw) as (_ & _ & _ & H & _).
    exact H.
  - intros Hn. destruct (exec_balanced c tr s Hexec Hn) as (_ & _ & _ & H & _).
    exact H.
  - destruct (rpc s); simpl; congruence.
  - intros v s' Hpc Hstep. simpl in Hstep. rewrite Hpc in Hstep.
    injection Hstep as <-. simpl. unfold upd.
    rewrite decide_True by reflexivity. split; [|reflexivity].
    wrap_arith.
Qed.

(** What holds of every reachable state: the ingestion goroutine leaves
    its loop only on a closed connection, only the reporter's exit branch
    closes the connection before that, [finished] is closed only past the
    loop, and [Stop] returns only on a closed [finished]. *)
Lemma exec_shutdown_order : ∀ tr s,
  exec tr init = Some s →
  (ipc s ≠ i_loop → conn_is_closed s = true) ∧
  (conn_is_closed s = true → rpc s = r_returned) ∧
  (finished_closed s = true → ipc s = i_closed ∨ ipc s = i_returned) ∧
  (spc s = s_returned → finished_closed s = true).
Proof.
  induction tr as [|a tr IH] using rev_ind; intros s Hexec.
  - injection Hexec as <-. simpl. split_and!; congruence.
  - apply exec_snoc in Hexec as (s0 & Hexec & Hstep).
    destruct (IH s0 Hexec) as (H1 & H2 & H3 & H4).
    step_cases Hstep; split_and!; intros; simplify_eq;
      try (intuition congruence).
Qed.

(** Once both goroutines have returned from their loops nothing is sent. *)
Lemma exec_after_exit : ∀ tr s s',
  (ipc s = i_closed ∨ ipc s = i_returned) →
  rpc s = r_returned →
  exec tr s = Some s' →
  chan_out s' = chan_out s.
Proof.
  induction tr as [|a tr IH]; intros s s' Hi Hr Hexec; simpl in Hexec.
  - congruence.
  - destruct (step a s) as [s1|] eqn:Hstep; [|discriminate].
    assert (H : (ipc s1 = i_closed ∨ ipc s1 = i_returned) ∧
                rpc s1 = r_returned ∧ chan_out s1 = chan_out s).
    { step_cases Hstep; destruct Hi; split_and!; auto; congruence. }
    destruct H as (Hi1 & Hr1 & <-). exact (IH s1 s' Hi1 Hr1 Hexec).
Qed.

(** C7: in every interleaving in which [Stop] has returned, [finished] is
    closed, the ingestion goroutine is past its loop and past
    [close(rcv.finished)], the reporter has returned, and whatever happens
    afterwards sends nothing more on [out]. *)
Theorem Stop_returns_after_loop_exit tr s :
  exec tr init = Some s →
  spc s = s_returned →
  finished_closed s = true ∧
  (ipc s = i_closed ∨ ipc s = i_returned) ∧
  rpc s = r_returned ∧
  ∀ tr' s', exec tr' s = Some s' →
    chan_out s' = chan_out s ∧
    forwarded (chan_out s') = forwarded (chan_out s).
Proof.
  intros Hexec Hret.
  destruct (exec_shutdown_order tr s Hexec) as (H1 & H2 & H3 & H4).
  pose proof (H4 Hret) as Hfin. pose proof (H3 Hfin) as Hi.
  assert (Hr : rpc s = r_returned).
  { apply H2, H1. destruct Hi; congruence. }
  split_and!; auto. intros tr' s' Hexec'.
  rewrite (exec_after_exit tr' s s' Hi Hr Hexec'). auto.
Qed.

End GoroutineFacts.

(** * Further properties of incompleteStorage *)
Section StorageMore.

Implicit Types (storage : incompleteStorage) (addr : string).

Lemma checkAndClear_MaxSize now_check now_scan now_set storage :
  MaxSize (checkAndClear now_check now_scan now_set storage) =
    MaxSize storage.
Proof.
  unfold checkAndClear. destruct (_ <? _)%Z; [reflexivity|].
  destruct (time.After _ _); reflexivity.
Qed.

Lemma pop_MaxSize now addr storage :
  MaxSize (pop now addr storage).2 = MaxSize storage.
Proof.
  unfold pop. destruct (Records storage !! addr); [|reflexivity].
  destruct (time.Before _ _); reflexivity.
Qed.

Lemma checkAndClear_size now_check now_scan now_set storage :
  size (Records (checkAndClear now_check now_scan now_set storage))
    ≤ size (Records storage).
Proof.
  unfold checkAndClear. destruct (_ <? _)%Z; [lia|].
  destruct (time.After _ _); [lia|]. simpl. apply map_size_filter.
Qed.

(** X1: what [store] has written for a sender, [pop] gives back once: when
    the purge of the [store], if any, and the [pop] both read the clock no
    later than the deadline, [pop] returns the stored data and the sender
    has no entry afterwards. *)
Theorem store_then_pop (now_store now_check now_scan now_set now : time.Time)
    addr (d : slice) storage :
  (now_scan ≤ now_store + Expires storage)%Z →
  (now ≤ now_store + Expires storage)%Z →
  let stored := store now_store now_check now_scan now_set addr d storage in
  (pop now addr stored).1 = d ∧
  Records (pop now addr stored).2 !! addr = None ∧
  ∀ addr', addr' ≠ addr →
    Records (pop now addr stored).2 !! addr' = Records stored !! addr'.
Proof.
  intros Hscan Hnow stored.
  pose proof (store_lookup_self now_store now_check now_scan now_set addr d
                storage Hscan) as Hin.
  fold stored in Hin. split; [|split].
  - rewrite (pop_hit now addr stored _ Hin); [reflexivity | exact Hnow].
  - apply pop_lookup_self.
  - intros addr' Hne. apply pop_lookup_other. exact Hne.
Qed.

(** X2: a second [pop] for the same sender finds nothing and leaves the
    storage as the first one left it, whatever the clock readings. *)
Theorem pop_twice (now now' : time.Time) addr storage :
  pop now' addr (pop now addr storage).2 = (None, (pop now addr storage).2).
Proof.
  unfold pop at 1. rewrite pop_lookup_self. reflexivity.
Qed.

(** X3: [store] never drops an entry of another sender whose deadline has
    not passed at the scan, however full the map is. *)
Theorem store_keeps_live_entries
    (now_store now_check now_scan now_set : time.Time) addr addr' (d : slice)
    storage record :
  addr' ≠ addr →
  Records storage !! addr' = Some record →
  (now_scan ≤ deadline record)%Z →
  Records (store now_store now_check now_scan now_set addr d storage)
    !! addr' = Some record.
Proof.
  intros Hne Hin Hlive.
  destruct (store_lookup_other now_store now_check now_scan now_set addr
              addr' d storage Hne) as [->|(_ & r & Hr & Hold)];
    [exact Hin|].
  rewrite Hin in Hr. injection Hr as <-. lia.
Qed.

(** X4: [MaxSize] is a threshold for purging, not a bound: when no entry
    has expired at the scan, [store] is the plain assignment, so the map
    grows past [MaxSize]; and in every case [store] adds at most one
    entry. *)
Theorem store_size
    (now_store now_check now_scan now_set : time.Time) addr (d : slice)
    storage :
  size (Records (store now_store now_check now_scan now_set addr d storage))
    ≤ S (size (Records storage)) ∧
  ((∀ a r, Records storage !! a = Some r → (now_scan ≤ deadline r)%Z) →
   (now_scan ≤ now_store + Expires storage)%Z →
   Records (store now_store now_check now_scan now_set addr d storage) =
     <[addr := {| deadline := (now_store + Expires storage)%Z; data := d |}]>
       (Records storage)).
Proof.
  split.
  - unfold store.
    etransitivity; [apply checkAndClear_size|]. unfold store_record. simpl.
    rewrite map_size_insert. destruct (Records storage !! addr); simpl; lia.
  - intros Hlive Hself. unfold store, checkAndClear.
    destruct (_ <? _)%Z; [reflexivity|].
    destruct (time.After _ _); [reflexivity|].
    unfold purge, store_record. simpl. apply map_filter_id.
    intros a r Hr. unfold alive, time.Before, time.Add. simpl.
    apply Z.ltb_ge. apply lookup_insert_Some in Hr as [[_ <-]|[_ Hr]].
    + simpl. exact Hself.
    + exact (Hlive a r Hr).
Qed.

(** X5: when [store] does purge (the map has reached [MaxSize] and
    [NextPurge] has come), no entry it leaves has a deadline before the
    scan, the new entry included. *)
Theorem store_purge_leaves_live
    (now_store now_check now_scan now_set : time.Time) addr (d : slice)
    storage :
  (MaxSize storage ≤
     Z.of_nat (size (Records (store_record now_store addr d storage))))%Z →
  (NextPurge storage ≤ now_check)%Z →
  ∀ a r,
    Records (store now_store now_check now_scan now_set addr d storage)
      !! a = Some r →
    (now_scan ≤ deadline r)%Z.
Proof.
  intros Hsize Hnext a r. unfold store, checkAndClear, time.After.
  change (MaxSize (store_record now_store addr d storage))
    with (MaxSize storage).
  change (NextPurge (store_record now_store addr d storage))
    with (NextPurge storage).
  apply Z.ltb_ge in Hsize. rewrite Hsize.
  apply Z.ltb_ge in Hnext. rewrite Hnext.
  rewrite purge_lookup.
  destruct (Records (store_record now_store addr d storage) !! a) as [r'|];
    [|discriminate].
  unfold time.Before. destruct (deadline r' <? now_scan)%Z eqn:B;
    [discriminate|].
  intros [= <-]. apply Z.ltb_ge in B. exact B.
Qed.

(** X6: on a clock that does not run backwards inside a call, [store]
    either leaves [NextPurge] alone or moves it at least one second on;
    [Expires] and [MaxSize] never change. *)
Theorem store_moves_NextPurge_forward
    (now_store now_check now_scan now_set : time.Time) addr (d : slice)
    storage :
  (now_check ≤ now_set)%Z →
  let stored := store now_store now_check now_scan now_set addr d storage in
  (NextPurge stored = NextPurge storage ∨
   (NextPurge storage + time.Second ≤ NextPurge stored)%Z) ∧
  Expires stored = Expires storage ∧
  MaxSize stored = MaxSize storage.
Proof.
  intros Hclock stored. split; [|split].
  - unfold stored, store, checkAndClear, time.After.
    destruct (_ <? _)%Z; [left; reflexivity|].
    destruct (now_check <? _)%Z eqn:B; [left; reflexivity|].
    right. apply Z.ltb_ge in B. simpl in *. unfold time.Add. lia.
  - apply store_Expires.
  - unfold stored, store. rewrite checkAndClear_MaxSize. reflexivity.
Qed.

End StorageMore.

(** * Further properties of the ingestion loop *)
Section ListenMore.

Context {Points : Type}.
Variable ParseText : list byte → option Points.

Implicit Types (st : @ingest Points) (buf : list byte) (peer : string).

Local Abbreviation dispatch_every :=
  (foldl (fun st line => dispatch ParseText (Some line) st)).

Local Ltac uint32_arith :=
  unfold atomic.AddUint32, atomic.wrap in *;
  Z.div_mod_to_equations; lia.

Lemma combine_bytes (prev : slice) payload :
  combine prev payload = slice_bytes prev ++ payload.
Proof. destruct prev; reflexivity. Qed.

Lemma tail_from_terminated l : ∀ cur, tail_from cur (l ++ [newline]) = [].
Proof.
  induction l as [|b l IH]; intros cur; simpl.
  - reflexivity.
  - destruct (Byte.eqb b newline); apply IH.
Qed.

Lemma AddUint32_swap x a b :
  atomic.AddUint32 (atomic.AddUint32 x a) b
  = atomic.AddUint32 (atomic.AddUint32 x b) a.
Proof. uint32_arith. Qed.

Lemma dispatch_accounted st0 e calls st pre :
  accounted_since ParseText st0 e calls st →
  accounted_since ParseText st0 e (calls ++ [pre ++ [newline]])
    (dispatch ParseText (Some (pre ++ [newline])) st).
Proof.
  intros (Hcalls & Hout & Hm & He). unfold accounted_since, dispatch.
  simpl len. rewrite length_app. simpl.
  replace (0 <? length pre + 1) with true
    by (symmetry; apply Nat.ltb_lt; lia).
  rewrite omap_app, !length_app. simpl.
  destruct (ParseText (pre ++ [newline])) as [msg|] eqn:Hp; simpl;
    rewrite Hcalls, Hout, <- !app_assoc, ?app_nil_r;
    (split; [reflexivity|]); (split; [reflexivity|]).
  - split; uint32_arith.
  - split; uint32_arith.
Qed.

Lemma dispatch_every_accounted st0 e ls : ∀ calls st,
  Forall (fun line => ∃ pre, line = pre ++ [newline]) ls →
  accounted_since ParseText st0 e calls st →
  accounted_since ParseText st0 e (calls ++ ls) (dispatch_every st ls).
Proof.
  induction ls as [|l ls IH]; intros calls st Hall Hacc.
  - rewrite app_nil_r. exact Hacc.
  - inversion Hall as [|? ? (pre & ->) Hrest]; subst. simpl.
    replace (calls ++ (pre ++ [newline]) :: ls)
      with ((calls ++ [pre ++ [newline]]) ++ ls)
      by (rewrite <- app_assoc; reflexivity).
    apply IH; [exact Hrest|]. apply dispatch_accounted. exact Hacc.
Qed.

Lemma receive_accounted st0 e calls clk payload peer st st' :
  receive ParseText clk payload peer st = Some st' →
  accounted_since ParseText st0 e calls st →
  ∃ ls, accounted_since ParseText st0 e (calls ++ ls) st'.
Proof.
  intros Hrecv Hacc. rewrite receive_result in Hrecv. cbv zeta in Hrecv.
  set (buf := combine (pop (now_pop clk) peer (lines st)).1 payload) in *.
  set (st1 := {| rcv := rcv st; lines := (pop (now_pop clk) peer (lines st)).2;
                 parse_calls := parse_calls st |}) in *.
  exists (records_from [] buf).
  pose proof (dispatch_every_accounted st0 e (records_from [] buf) calls st1
                (records_from_terminated buf []) Hacc)
    as (Hc & Ho & Hm & He).
  destruct (last_line_EOF_out clk peer (append_nil (tail_from [] buf))
              (dispatch_every st1 (records_from [] buf)))
    as (Ho' & Hp' & _ & Hm' & He').
  assert (Hfinal : accounted_since ParseText st0 e
            (calls ++ records_from [] buf)
            (last_line clk peer (append_nil (tail_from [] buf)) io_EOF
               (dispatch_every st1 (records_from [] buf)))).
  { unfold accounted_since. rewrite Ho', Hp', Hm', He'. auto. }
  congruence.
Qed.

Lemma Listen_loop_accounted st0 : ∀ (reads : list read) st e calls,
  accounted_since ParseText st0 e calls st →
  ∃ st' ls, Listen_loop ParseText reads st = Some st' ∧
    accounted_since ParseText st0 (e + read_errors reads) (calls ++ ls) st'.
Proof.
  induction reads as [|r reads IH]; intros st e calls Hacc.
  - exists st, []. simpl. rewrite Z.add_0_r, app_nil_r. auto.
  - destruct r as [clk payload peer|msg]; simpl.
    + destruct (receive_out ParseText clk payload peer st) as (st1 & Hrecv & _).
      rewrite Hrecv. simpl.
      destruct (receive_accounted st0 e calls clk payload peer st st1
                  Hrecv Hacc) as (ls & Hacc1).
      destruct (IH st1 e (calls ++ ls) Hacc1) as (st' & ls' & Hrun & Hacc').
      exists st', (ls ++ ls'). rewrite app_assoc. auto.
    + destruct (Contains msg closed_message).
      * eexists _, []. split; [reflexivity|].
        rewrite Z.add_0_r, app_nil_r. exact Hacc.
      * rewrite Z.add_assoc. apply IH.
        destruct Hacc as (Hc & Ho & Hm & He). unfold accounted_since. simpl.
        split; [exact Hc|]. split; [exact Ho|]. split; [exact Hm|].
        uint32_arith.
Qed.

(** The reporter's subtraction before a step of the loop is the
    subtraction after it. *)
Lemma dispatch_subtracted c v line st :
  dispatch ParseText line (subtracted c v st)
  = subtracted c v (dispatch ParseText line st).
Proof.
  unfold dispatch, subtracted. destruct (0 <? len line); [|reflexivity].
  simpl. destruct (ParseText (slice_bytes line)); destruct c; simpl;
    rewrite ?(AddUint32_swap _ 1 (atomic.neg v)); reflexivity.
Qed.

Lemma dispatch_every_subtracted c v ls : ∀ st,
  dispatch_every (subtracted c v st) ls
  = subtracted c v (dispatch_every st ls).
Proof.
  induction ls as [|l ls IH]; intros st; [reflexivity|]. simpl.
  rewrite dispatch_subtracted. apply IH.
Qed.

Lemma last_line_subtracted c v clk peer line e st :
  last_line clk peer line e (subtracted c v st)
  = subtracted c v (last_line clk peer line e st).
Proof.
  unfold last_line, subtracted. destruct e.
  - destruct (0 <? len line); [|reflexivity].
    destruct c; simpl;
      rewrite ?(AddUint32_swap _ 1 (atomic.neg v)); reflexivity.
  - destruct c; simpl;
      rewrite ?(AddUint32_swap _ 1 (atomic.neg v)); reflexivity.
Qed.

Lemma receive_subtracted c v clk payload peer st :
  receive ParseText clk payload peer (subtracted c v st)
  = subtracted c v <$> receive ParseText clk payload peer st.
Proof.
  rewrite !receive_result. cbv zeta.
  pose (popped := pop (now_pop clk) peer (lines st)).
  pose (buf := combine popped.1 payload).
  pose (st1 := {| rcv := rcv st; lines := popped.2;
                  parse_calls := parse_calls st |}).
  change (Some (last_line clk peer (append_nil (tail_from [] buf)) io_EOF
                  (dispatch_every (subtracted c v st1) (records_from [] buf)))
          = Some (subtracted c v
                    (last_line clk peer (append_nil (tail_from [] buf)) io_EOF
                       (dispatch_every st1 (records_from [] buf))))).
  rewrite dispatch_every_subtracted, last_line_subtracted. reflexivity.
Qed.

Lemma Listen_loop_subtracted c v : ∀ (reads : list read) st,
  Listen_loop ParseText reads (subtracted c v st)
  = subtracted c v <$> Listen_loop ParseText reads st.
Proof.
  induction reads as [|r reads IH]; intros st; [reflexivity|].
  destruct r as [clk payload peer|msg]; simpl.
  - rewrite receive_subtracted.
    destruct (receive ParseText clk payload peer st) as [st1|];
      [|reflexivity]. simpl. apply IH.
  - destruct (Contains msg closed_message).
    + simpl. destruct c; reflexivity.
    + rewrite <- IH. f_equal. unfold subtracted. simpl.
      destruct c; simpl;
        rewrite ?(AddUint32_swap _ 1 (atomic.neg v)); reflexivity.
Qed.

(** X7: over any reads the loop processes, from any state and so from
    any values the reporter has left in the counters, the loop itself
    appends to [out] the accepted arguments of the parser in call order,
    raises [metricsReceived] by their number and [errors] by the number
    of rejected lines plus the read errors before the closure, both
    modulo [2^32]; and a subtraction [atomic.AddUint32(&c, -v)] of the
    reporter that lands before these reads leaves the same state as one
    that lands after them, so the reporter's resets move nothing of what
    the loop adds. *)
Theorem Listen_loop_accounts (reads : list read) st :
  ∃ st' calls,
    Listen_loop ParseText reads st = Some st' ∧
    parse_calls st' = parse_calls st ++ calls ∧
    out (rcv st') = out (rcv st) ++ omap ParseText calls ∧
    (metricsReceived (rcv st') mod 2 ^ 32
     = (metricsReceived (rcv st)
        + Z.of_nat (length (omap ParseText calls))) mod 2 ^ 32)%Z ∧
    (errors (rcv st') mod 2 ^ 32
     = (errors (rcv st)
        + (Z.of_nat (length calls)
           - Z.of_nat (length (omap ParseText calls)))
        + read_errors reads) mod 2 ^ 32)%Z ∧
    ∀ c v, Listen_loop ParseText reads (subtracted c v st)
           = Some (subtracted c v st').
Proof.
  destruct (Listen_loop_accounted st reads st 0 [])
    as (st' & calls & Hrun & Hc & Ho & Hm & He).
  - unfold accounted_since. simpl. rewrite !app_nil_r, !Z.add_0_r. auto.
  - exists st', calls. simpl in Hc, Ho, Hm, He.
    split; [exact Hrun|]. split; [exact Hc|]. split; [exact Ho|].
    split; [exact Hm|]. split; [exact He|].
    intros c v. rewrite Listen_loop_subtracted, Hrun. reflexivity.
Qed.

Lemma pop_lookup_Some now addr a storage record :
  Records (pop now addr storage).2 !! a = Some record →
  Records storage !! a = Some record.
Proof.
  unfold pop. destruct (Records storage !! addr); [|auto].
  destruct (time.Before _ _); simpl; intros H;
    apply lookup_delete_Some in H as [_ H]; exact H.
Qed.

Lemma store_lookup_Some now_store now_check now_scan now_set addr a d storage
    record :
  Records (store now_store now_check now_scan now_set addr d storage) !! a
    = Some record →
  (a = addr ∧ data record = d) ∨ Records storage !! a = Some record.
Proof.
  intros Hr. unfold store in Hr.
  assert (Hin : Records (store_record now_store addr d storage) !! a
                = Some record).
  { destruct (checkAndClear_lookup now_check now_scan now_set
                (store_record now_store addr d storage) a) as [H|H];
      rewrite H in Hr; [exact Hr|].
    destruct (Records (store_record now_store addr d storage) !! a) as [r'|];
      [|discriminate].
    destruct (time.Before _ _); [discriminate | exact Hr]. }
  unfold store_record in Hin. simpl in Hin.
  apply lookup_insert_Some in Hin as [[<- <-]|[_ Hin]]; auto.
Qed.

Lemma Listen_loop_entries (ok : string → Prop) : ∀ (reads : list read) st,
  (∀ clk payload p, Datagram clk payload p ∈ reads → ok p) →
  entries_from ok (lines st) →
  ∃ st', Listen_loop ParseText reads st = Some st' ∧
    entries_from ok (lines st') ∧
    Expires (lines st') = Expires (lines st) ∧
    MaxSize (lines st') = MaxSize (lines st).
Proof.
  induction reads as [|r reads IH]; intros st Hok Hent.
  - exists st. auto.
  - assert (Hok' : ∀ clk payload p, Datagram clk payload p ∈ reads → ok p).
    { intros clk payload p Hin. apply (Hok clk payload p).
      apply elem_of_cons. right. exact Hin. }
    destruct r as [clk payload peer|msg]; simpl.
    + destruct (receive_out ParseText clk payload peer st)
        as (st1 & -> & _ & _ & _ & Hl). cbv zeta in Hl. simpl.
      assert (Hpop : entries_from ok (pop (now_pop clk) peer (lines st)).2).
      { intros a r Hr. apply (Hent a r). eapply pop_lookup_Some. exact Hr. }
      destruct (IH st1 Hok') as (st' & Hrun & Hent' & He & Hm).
      * rewrite Hl. destruct (tail_from [] _) as [|b t]; [exact Hpop|].
        intros a r Hr. apply store_lookup_Some in Hr as [[-> Hd]|Hr].
        -- split; [|eauto]. apply (Hok clk payload peer).
           apply elem_of_cons. left. reflexivity.
        -- exact (Hpop a r Hr).
      * exists st'. split; [exact Hrun|]. split; [exact Hent'|].
        rewrite He, Hm, Hl.
        destruct (tail_from [] _);
          rewrite ?store_Expires, ?pop_Expires; (split; [reflexivity|]);
          unfold store; rewrite ?checkAndClear_MaxSize; simpl;
          unfold pop; destruct (Records (lines st) !! peer);
          try destruct (time.Before _ _); reflexivity.
    + destruct (Contains msg closed_message).
      * eexists. split; [reflexivity|]. auto.
      * apply (IH {| rcv := add_errors (rcv st); lines := lines st;
                     parse_calls := parse_calls st |} Hok' Hent).
Qed.

(** X8: whatever a fresh loop has read, its storage still expires after
    five seconds and purges from 10000 entries on, and every entry is a
    non-empty fragment of a sender one of the datagrams read came from. *)
Theorem Listen_storage_entries (now0 : time.Time) (reads : list read) :
  ∃ st, Listen ParseText now0 reads = Some st ∧
    Expires (lines st) = (5 * time.Second)%Z ∧
    MaxSize (lines st) = 10000%Z ∧
    ∀ addr record, Records (lines st) !! addr = Some record →
      (∃ clk payload, Datagram clk payload addr ∈ reads) ∧
      ∃ b t, data record = Some (b :: t).
Proof.
  destruct (Listen_loop_entries
              (fun p => ∃ clk payload, Datagram clk payload p ∈ reads) reads
              {| rcv := NewUDP; lines := newIncompleteStorage now0;
                 parse_calls := [] |})
    as (st & Hrun & Hent & He & Hm).
  - intros clk payload p Hin. eauto.
  - intros a r Hr. simpl in Hr. rewrite lookup_empty in Hr. discriminate.
  - exists st. split; [exact Hrun|]. rewrite He, Hm. auto.
Qed.

(** X9: the loop goes through reads without a closure with [finished]
    untouched; at the first read that fails with the closure text it
    closes [finished] and takes no further read, whatever follows. *)
Theorem Listen_loop_stops_at_closure (pre post : list read) (msg : string)
    st :
  no_closure pre →
  Contains msg closed_message = true →
  ∃ st1, Listen_loop ParseText pre st = Some st1 ∧
    finished (rcv st1) = finished (rcv st) ∧
    Listen_loop ParseText (pre ++ Failure msg :: post) st =
      Some {| rcv := close_finished (rcv st1); lines := lines st1;
              parse_calls := parse_calls st1 |}.
Proof.
  intros Hpre Hmsg. revert st.
  induction pre as [|r pre IH]; intros st.
  - exists st. simpl. rewrite Hmsg. auto.
  - inversion Hpre as [|? ? Hr Hpre']; subst.
    destruct r as [clk payload peer|m]; simpl.
    + destruct (receive_out ParseText clk payload peer st)
        as (st1 & -> & _ & _ & Hf & _). simpl.
      destruct (IH Hpre' st1) as (st2 & H1 & H2 & H3).
      exists st2. rewrite H2, Hf. auto.
    + rewrite Hr. destruct (IH Hpre' {| rcv := add_errors (rcv st);
                                        lines := lines st;
                                        parse_calls := parse_calls st |})
        as (st2 & H1 & H2 & H3).
      exists st2. auto.
Qed.

(** X10: a fragment whose deadline has passed when the next datagram of
    its sender is popped is dropped: the turn runs exactly as if the
    storage held nothing for the sender. *)
Theorem receive_drops_expired clk payload peer st record :
  Records (lines st) !! peer = Some record →
  (deadline record < now_pop clk)%Z →
  receive ParseText clk payload peer st =
    receive ParseText clk payload peer
      {| rcv := rcv st;
         lines := set_Records (delete peer (Records (lines st))) (lines st);
         parse_calls := parse_calls st |}.
Proof.
  intros Hin Hlate. unfold receive, pop, time.Before. simpl.
  rewrite Hin, lookup_delete_eq. apply Z.ltb_lt in Hlate. rewrite Hlate.
  reflexivity.
Qed.

(** X11: an empty datagram from a sender with nothing pending changes
    nothing: no parser call, no counter, no entry. *)
Theorem receive_empty_datagram clk peer st :
  Records (lines st) !! peer = None →
  receive ParseText clk [] peer st = Some st.
Proof.
  intros Hnone. unfold receive, pop. rewrite Hnone. simpl.
  destruct st as [r l p]. reflexivity.
Qed.

(** X12: a datagram without a delimiter is not parsed but added to what
    is pending for its sender: nothing is sent, [incompleteReceived] goes
    up by one, and the entry of the sender holds the old fragment followed
    by the datagram, with a new deadline. No length bounds the fragment. *)
Theorem receive_accumulates clk payload peer st :
  fragments_clean (lines st) →
  newline ∉ payload →
  slice_bytes (pop (now_pop clk) peer (lines st)).1 ++ payload ≠ [] →
  (now_scan clk ≤ now_store clk + Expires (lines st))%Z →
  ∃ st', receive ParseText clk payload peer st = Some st' ∧
    out (rcv st') = out (rcv st) ∧
    parse_calls st' = parse_calls st ∧
    incompleteReceived (rcv st')
      = ((incompleteReceived (rcv st) + 1) mod 2 ^ 32)%Z ∧
    Records (lines st') !! peer =
      Some {| deadline := (now_store clk + Expires (lines st))%Z;
              data := Some (slice_bytes (pop (now_pop clk) peer (lines st)).1
                            ++ payload) |}.
Proof.
  intros Hclean Hpay Hne Hscan.
  destruct (pop_clean (now_pop clk) peer (lines st) Hclean) as [_ Hprev].
  rewrite receive_result. cbv zeta. rewrite combine_bytes.
  set (whole := slice_bytes _ ++ payload) in *.
  assert (Hwhole : newline ∉ whole).
  { unfold whole. rewrite elem_of_app. intros [?|?]; contradiction. }
  destruct (records_from_clean [] whole [] Hwhole) as [Hrec Htail].
  rewrite app_nil_r in Hrec, Htail. simpl in Hrec, Htail.
  rewrite Hrec, Htail. simpl foldl.
  destruct whole as [|b w] eqn:Ew; [congruence|].
  eexists. split; [reflexivity|]. simpl.
  split; [reflexivity|]. split; [reflexivity|]. split; [reflexivity|].
  rewrite <- (pop_Expires (now_pop clk) peer (lines st)).
  apply store_lookup_self. rewrite pop_Expires. exact Hscan.
Qed.

(** X13: after a datagram that ends in the delimiter nothing is pending
    for its sender: the storage is what [pop] left, and
    [incompleteReceived] is as before. *)
Theorem receive_terminated_datagram clk (l : list byte) peer st :
  ∃ st', receive ParseText clk (l ++ [newline]) peer st = Some st' ∧
    lines st' = (pop (now_pop clk) peer (lines st)).2 ∧
    Records (lines st') !! peer = None ∧
    incompleteReceived (rcv st') = incompleteReceived (rcv st).
Proof.
  rewrite receive_result. cbv zeta. rewrite combine_bytes, app_assoc.
  rewrite tail_from_terminated. eexists. split; [reflexivity|].
  simpl. rewrite dispatch_all_lines. simpl.
  split; [reflexivity|]. split; [apply pop_lookup_self|].
  match goal with
  | |- context [foldl ?f ?s ?ls] =>
      destruct (dispatch_all_flags ParseText s ls) as (_ & _ & ->)
  end.
  reflexivity.
Qed.

(** X14: a turn loses and repeats no byte: the lines it hands to the
    parser, in order, followed by the fragment it stores, are the pending
    bytes followed by the datagram; every line ends in the delimiter and
    the fragment holds none. *)
Theorem receive_keeps_every_byte clk payload peer st :
  ∃ st' ls tail,
    receive ParseText clk payload peer st = Some st' ∧
    parse_calls st' = parse_calls st ++ ls ∧
    concat ls ++ tail =
      slice_bytes (pop (now_pop clk) peer (lines st)).1 ++ payload ∧
    Forall (fun line => ∃ pre, line = pre ++ [newline]) ls ∧
    (newline ∉ tail) ∧
    lines st' =
      match tail with
      | [] => (pop (now_pop clk) peer (lines st)).2
      | _ :: _ =>
          store (now_store clk) (now_check clk) (now_scan clk) (now_set clk)
            peer (Some tail) (pop (now_pop clk) peer (lines st)).2
      end.
Proof.
  destruct (receive_out ParseText clk payload peer st)
    as (st' & Hrecv & _ & Hcalls & _ & Hlines).
  cbv zeta in Hcalls, Hlines. rewrite combine_bytes in Hcalls, Hlines.
  exists st', (records_from []
                 (slice_bytes (pop (now_pop clk) peer (lines st)).1
                  ++ payload)),
    (tail_from []
       (slice_bytes (pop (now_pop clk) peer (lines st)).1 ++ payload)).
  split; [exact Hrecv|]. split; [exact Hcalls|].
  split; [apply (records_concat _ [])|].
  split; [apply records_from_terminated|].
  split; [apply tail_from_clean, not_elem_of_nil | exact Hlines].
Qed.

End ListenMore.

(** * Properties of logIncomplete *)
Section LogFacts.

Implicit Types (message lastLine : list byte) (peer : string).

Lemma IndexByte_cases message :
  (IndexByte message newline = (-1)%Z ∧ (newline ∉ message)) ∨
  ∃ h r, message = h ++ newline :: r ∧ (newline ∉ h) ∧
         IndexByte message newline = Z.of_nat (length h).
Proof.
  induction message as [|b m IH]; simpl.
  - left. split; [reflexivity | apply not_elem_of_nil].
  - destruct (Byte.eqb b newline) eqn:B.
    + apply Byte.byte_dec_bl in B. subst b. right. exists [], m.
      split; [reflexivity|]. split; [apply not_elem_of_nil | reflexivity].
    + apply Byte.eqb_false in B.
      destruct IH as [[-> Hm]|(h & r & -> & Hh & ->)].
      * left. simpl. split; [reflexivity|].
        intros [?|?]%elem_of_cons; [congruence | contradiction].
      * right. exists (b :: h), r. split; [reflexivity|]. split.
        -- intros [?|?]%elem_of_cons; [congruence | contradiction].
        -- destruct (Z.of_nat (length h) <? 0)%Z eqn:L.
           ++ apply Z.ltb_lt in L. lia.
           ++ simpl length. lia.
Qed.

(** After a delimiter, what is left over at the end is either everything
    (no further delimiter) or what follows the last delimiter. *)
Lemma tail_from_last r : ∀ cur,
  ((newline ∉ r) ∧ tail_from cur r = cur ++ r) ∨
  ∃ m, cur ++ r = m ++ newline :: tail_from cur r.
Proof.
  induction r as [|b r IH]; intros cur; simpl.
  - left. rewrite app_nil_r. split; [apply not_elem_of_nil | reflexivity].
  - destruct (Byte.eqb b newline) eqn:B.
    + apply Byte.byte_dec_bl in B. subst b. right.
      destruct (IH []) as [[Hr ->]|(m & Hm)].
      * exists cur. reflexivity.
      * simpl in Hm. exists (cur ++ newline :: m).
        rewrite Hm at 1. rewrite <- app_assoc. reflexivity.
    + apply Byte.eqb_false in B.
      destruct (IH (cur ++ [b])) as [[Hr ->]|(m & Hm)].
      * left. split; [|rewrite <- app_assoc; reflexivity].
        intros [?|?]%elem_of_cons; [congruence | contradiction].
      * right. exists m. rewrite <- Hm, <- app_assoc. reflexivity.
Qed.

(** The warning of a turn, in closed form. *)
Lemma read_lines_warning_result enabled peer payload : ∀ fuel buf,
  length buf < fuel →
  read_lines_warning fuel enabled peer payload buf =
    Some (match tail_from [] buf with
          | [] => None
          | _ :: _ =>
              if enabled
              then Some (logIncomplete peer payload (tail_from [] buf))
              else None
          end).
Proof.
  induction fuel as [|fuel IH]; intros buf Hlen; [lia|].
  simpl. unfold ReadBytes.
  pose proof (readSlice_cases buf) as Hcases.
  destruct (readSlice newline buf) as [[l rest] [e|]].
  - destruct Hcases as (-> & -> & -> & _ & Hcur).
    destruct (Hcur []) as [_ ->]. simpl. destruct buf; reflexivity.
  - destruct Hcases as ((pre & -> & _) & -> & Hcur).
    destruct (Hcur []) as [_ ->].
    apply IH. rewrite !length_app in Hlen. simpl in Hlen. lia.
Qed.

(** X16: what a turn logs about an incomplete datagram. With logging off
    it writes nothing. Otherwise the warning is either the whole datagram,
    or the short form, and then the datagram is the logged head, a
    delimiter, the bytes left out, a delimiter and the logged last line,
    where the number logged is the number of bytes left out and at least
    nine, and neither the head nor the last line holds a delimiter. *)
Theorem receive_warning_shape (enabled : bool) (clk : clock)
    (payload : list byte) peer (storage : incompleteStorage) :
  ∃ w, receive_warning enabled clk payload peer storage = Some w ∧
    (enabled = false → w = None) ∧
    ∀ entry, w = Some entry →
      entry = warn_full peer payload ∨
      ∃ head middle lastLine,
        entry = warn_short peer head (Z.of_nat (length middle)) lastLine ∧
        payload = head ++ [newline] ++ middle ++ [newline] ++ lastLine ∧
        9 ≤ length middle ∧
        (newline ∉ head) ∧ (newline ∉ lastLine).
Proof.
  unfold receive_warning. rewrite read_lines_warning_result by lia.
  rewrite combine_bytes.
  set (p := slice_bytes (pop (now_pop clk) peer storage).1).
  eexists. split; [reflexivity|]. split.
  - intros ->. destruct (tail_from [] (p ++ payload)); reflexivity.
  - intros entry Hw.
    destruct (tail_from [] (p ++ payload)) as [|b t] eqn:Et; [discriminate|].
    destruct enabled; [|discriminate]. injection Hw as <-.
    unfold logIncomplete.
    destruct (IndexByte_cases payload)
      as [[-> _]|(head & r & Hpay & Hhead & Hidx)];
      [left; reflexivity|].
    rewrite Hidx.
    destruct (negb _ && _) eqn:Hcond; [|left; reflexivity].
    right. apply andb_true_iff in Hcond as [_ Hlt]. apply Z.ltb_lt in Hlt.
    assert (Htail : tail_from [] (p ++ payload) = tail_from [] r).
    { rewrite Hpay, app_assoc.
      rewrite (proj2 (records_from_app (p ++ head) (newline :: r) [])).
      reflexivity. }
    rewrite Htail in Et. rewrite <- Et in *.
    rewrite Hpay, length_app in Hlt. simpl in Hlt.
    destruct (tail_from_last r []) as [[_ Hall]|(m & Hm)].
    + simpl in Hall. rewrite Hall in Hlt. lia.
    + simpl in Hm. exists head, m, (tail_from [] r).
      assert (Hlen : length r = length m + S (length (tail_from [] r))).
      { rewrite Hm at 1. rewrite length_app. reflexivity. }
      split; [|split; [|split; [|split]]].
      * rewrite Nat2Z.id. rewrite Hpay at 1.
        rewrite take_app_length. f_equal.
        rewrite Hpay, length_app. simpl. lia.
      * rewrite Hpay. rewrite Hm at 1. reflexivity.
      * lia.
      * exact Hhead.
      * apply tail_from_clean, not_elem_of_nil.
Qed.

End LogFacts.

(** * Further properties of the goroutines *)
Section GoroutineMore.

Context {Points : Type}.

Implicit Types (s : @system Points) (tr : list (@action Points))
  (c : counter).

Local Ltac step_split H :=
  match type of H with
  | step ?a _ = Some _ =>
      destruct a; simpl in H; repeat case_match; simplify_eq; simpl
  end.

Lemma stats_snoc (o : list (@sent Points)) x :
  stats (o ++ [x]) =
    stats o ++ match x with
               | sent_stat c _ => [c]
               | sent_msg _ => []
               end.
Proof.
  induction o as [|y o IH]; simpl.
  - destruct x; reflexivity.
  - destruct y; rewrite IH; reflexivity.
Qed.

Lemma round_counter_at q c : round_counter (3 * q + round_index c) = c.
Proof.
  unfold round_counter.
  rewrite Nat.add_comm, Nat.mul_comm, Nat.Div0.mod_add.
  destruct c; reflexivity.
Qed.

(** The statistics sent so far are whole rounds followed by the part of
    the current round that the reporter has got through. *)
Lemma exec_stats_rounds : ∀ tr s,
  exec tr init = Some s →
  (∀ k c, stats (chan_out s) !! k = Some c → c = round_counter k) ∧
  ∃ q, length (stats (chan_out s)) = 3 * q + round_phase (rpc s).
Proof.
  induction tr as [|a tr IH] using rev_ind; intros s Hexec.
  - injection Hexec as <-. simpl. split; [|exists 0; reflexivity].
    intros k c Hk. rewrite lookup_nil in Hk. discriminate.
  - apply exec_snoc in Hexec as (s0 & Hexec & Hstep).
    destruct (IH s0 Hexec) as (Hord & q & Hlen).
    step_split Hstep; rewrite ?stats_snoc, ?app_nil_r; simpl;
      try (split; [exact Hord | exists q; rewrite Hlen;
                                 repeat case_match; simplify_eq;
                                 simpl; congruence]).
    match goal with H : rpc s0 = r_stat ?c ?v |- _ =>
      rename c into c0; rename H into Hpc end.
    simpl in Hlen. split.
    + intros k c Hk. apply lookup_app_Some in Hk as [Hk|[Hge Hk]].
      * exact (Hord k c Hk).
      * apply list_lookup_singleton_Some in Hk as [Hk <-].
        assert (k = 3 * q + round_index c0) as -> by lia.
        symmetry. apply round_counter_at.
    + rewrite length_app, Hlen. simpl.
      destruct c0; simpl; [exists q | exists q | exists (S q)]; lia.
Qed.

(** X17: the reporter sends its statistics in rounds of three, always in
    the order [metricsReceived], [incompleteReceived], [errors]: in every
    interleaving the k-th statistic on [out] is for the counter at place
    k modulo 3. *)
Theorem stats_in_round_order tr s (k : nat) c :
  exec tr init = Some s →
  stats (chan_out s) !! k = Some c →
  c = round_counter k.
Proof.
  intros Hexec Hk.
  destruct (exec_stats_rounds tr s Hexec) as [Hord _]. exact (Hord k c Hk).
Qed.

Lemma exec_app tr1 tr2 s :
  exec (tr1 ++ tr2) s =
    match exec tr1 s with
    | Some s1 => exec tr2 s1
    | None => None
    end.
Proof.
  revert s. induction tr1 as [|a tr1 IH]; intros s; simpl; [reflexivity|].
  destruct (step a s); [apply IH | reflexivity].
Qed.

(** Load, add and [Stat] for one counter, nothing in between. *)
Lemma report_counter_exec s c :
  rpc s = r_load c →
  (0 ≤ ctr s c < 2 ^ 32)%Z →
  exec report_counter s =
    Some {| ctr := upd c 0%Z (ctr s);
            chan_out := chan_out s ++ [sent_stat c (ctr s c)];
            exit_closed := exit_closed s;
            finished_closed := finished_closed s;
            conn_is_closed := conn_is_closed s;
            rpc := after_stat c; ipc := ipc s; spc := spc s |}.
Proof.
  intros Hpc Hrange. destruct s as [f o e fin cn r i sp].
  cbn [rpc ctr] in Hpc, Hrange. subst r. unfold report_counter.
  cbn [exec step rpc set_rpc set_ctr set_out ctr chan_out after_stat
       ipc spc exit_closed conn_is_closed finished_closed].
  replace (atomic.AddUint32 (f c) (atomic.neg (f c))) with 0%Z;
    [reflexivity|].
  unfold atomic.AddUint32, atomic.neg, atomic.wrap.
  Z.div_mod_to_equations; lia.
Qed.

(** X18: a round of the reporter with no increment in between sends the
    value of each counter and leaves all three at zero, with the reporter
    back at its [select]. *)
Theorem report_round_undisturbed tr s :
  exec tr init = Some s →
  rpc s = r_select →
  ∃ s', exec report_round s = Some s' ∧
    (∀ c, ctr s' c = 0%Z) ∧
    chan_out s' =
      chan_out s ++
        [sent_stat c_metricsReceived (ctr s c_metricsReceived);
         sent_stat c_incompleteReceived (ctr s c_incompleteReceived);
         sent_stat c_errors (ctr s c_errors)] ∧
    rpc s' = r_select.
Proof.
  intros Hexec Hpc.
  destruct (exec_conserves c_metricsReceived tr s Hexec) as [Hm _].
  destruct (exec_conserves c_incompleteReceived tr s Hexec) as [Hi _].
  destruct (exec_conserves c_errors tr s Hexec) as [He _].
  unfold report_round. cbn [exec]. unfold step. rewrite Hpc.
  rewrite exec_app, (report_counter_exec _ c_metricsReceived);
    [|reflexivity | exact Hm].
  rewrite exec_app, (report_counter_exec _ c_incompleteReceived);
    [|reflexivity | exact Hi].
  rewrite (report_counter_exec _ c_errors); [|reflexivity | exact He].
  eexists. split; [reflexivity|].
  cbn [ctr chan_out rpc after_stat set_rpc]. split; [|split].
  - intros c. destruct c; reflexivity.
  - rewrite <- !app_assoc. reflexivity.
  - reflexivity.
Qed.

(** The flags follow the program counters. *)
Lemma exec_flags : ∀ tr s,
  exec tr init = Some s →
  (exit_closed s = true → spc s ≠ s_idle) ∧
  (spc s ≠ s_idle → exit_closed s = true) ∧
  (conn_is_closed s = true → exit_closed s = true) ∧
  (rpc s = r_returned → conn_is_closed s = true) ∧
  (ipc s ≠ i_loop → conn_is_closed s = true) ∧
  (finished_closed s = true → ipc s = i_closed ∨ ipc s = i_returned) ∧
  (ipc s = i_closed ∨ ipc s = i_returned → finished_closed s = true).
Proof.
  induction tr as [|a tr IH] using rev_ind; intros s Hexec.
  - injection Hexec as <-. simpl. split_and!; intros; try congruence.
    intuition congruence.
  - apply exec_snoc in Hexec as (s0 & Hexec & Hstep).
    destruct (IH s0 Hexec) as (H1 & H2 & H3 & H4 & H5 & H6 & H7).
    step_split Hstep; split_and!; intros; simplify_eq;
      try (intuition congruence).
    destruct c; discriminate.
Qed.

(** X19: nothing ends before [Stop] is called: in every interleaving, if
    the reporter has returned, or the ingestion goroutine has left its
    loop, or the connection or [finished] is closed, then [Stop] has been
    called and [exit] is closed. *)
Theorem nothing_ends_before_Stop tr s :
  exec tr init = Some s →
  rpc s = r_returned ∨ ipc s ≠ i_loop ∨ conn_is_closed s = true
    ∨ finished_closed s = true →
  spc s ≠ s_idle ∧ exit_closed s = true.
Proof.
  intros Hexec Hany.
  destruct (exec_flags tr s Hexec) as (H1 & H2 & H3 & H4 & H5 & H6 & H7).
  assert (Hconn : conn_is_closed s = true).
  { destruct Hany as [?|[?|[?|Hf]]]; auto.
    apply H5. apply H6 in Hf. destruct Hf; congruence. }
  split; [apply H1|]; auto.
Qed.

Local Ltac run_to_return :=
  match goal with
  | |- ∃ s', exec ?T ?S = Some s' ∧ _ =>
      let H := fresh in
      assert (H : match exec T S with
                  | Some s' => spc s' = s_returned
                  | None => False
                  end) by (vm_compute; reflexivity);
      destruct (exec T S) as [s'|];
      [exists s'; split; [reflexivity | exact H] | destruct H]
  end.

(** X20: [Stop] can always be brought to return: from every state an
    interleaving reaches, the actions of [stop_exit] are enabled one after
    the other and end with [Stop] returned. (A send on [out] is taken to
    return, as everywhere in this model.) *)
Theorem Stop_can_return tr s :
  exec tr init = Some s →
  ∃ s', exec (stop_exit s) s = Some s' ∧ spc s' = s_returned.
Proof.
  intros Hexec.
  destruct (exec_flags tr s Hexec) as (H1 & H2 & H3 & H4 & H5 & H6 & H7).
  clear Hexec. destruct s as [f o e fin cn r i sp].
  cbn [exit_closed spc conn_is_closed rpc ipc finished_closed] in *.
  unfold stop_exit, reporter_exit, ingest_exit, rest_of_round,
    report_counter.
  cbn [spc rpc ipc].
  assert (He : e = match sp with s_idle => false | _ => true end).
  { destruct sp, e; try reflexivity;
      first [ exfalso; exact (H1 eq_refl eq_refl)
            | apply H2; discriminate ]. }
  assert (Hfin : fin = match i with
                       | i_closed | i_returned => true
                       | _ => false
                       end).
  { destruct i, fin; try reflexivity;
      first [ destruct (H6 eq_refl); discriminate
            | apply H7; auto ]. }
  assert (Hcn : cn = true ∨
                (cn = false ∧ i = i_loop ∧ r ≠ r_returned)).
  { destruct cn; [left; reflexivity | right].
    split; [reflexivity|]. split.
    - destruct i; try reflexivity; exfalso;
        assert (false = true) by (apply H5; discriminate); discriminate.
    - intros ->. assert (false = true) by (apply H4; reflexivity).
      discriminate. }
  assert (Hidle : sp = s_idle → cn = false).
  { intros ->. destruct cn; [|reflexivity].
    pose proof (H3 eq_refl). congruence. }
  clear H1 H2 H3 H4 H5 H6 H7. subst e fin.
  destruct Hcn as [->|(-> & -> & Hr)].
  - destruct sp; [specialize (Hidle eq_refl); discriminate | |];
      clear Hidle;
      destruct r as [|c|c v|c v|]; try destruct c; destruct i;
      run_to_return.
  - clear Hidle.
    destruct sp, r as [|c|c v|c v|]; try destruct c;
      try (exfalso; apply Hr; reflexivity);
      run_to_return.
Qed.

End GoroutineMore.

(** * Worked executions *)

(** The scenario of two datagrams ["a\nb"] and ["c\n"] from one sender,
    with a parser that accepts every line as it is. *)
Lemma reassembly_of_split_stream_example :
  ∃ st_split st_whole,
    Listen_loop Some
      (from_peer "10.0.0.1:2003"
         [(mkClock 0 1 2 3 4, [x61; x0a; x62]); (mkClock 5 6 7 8 9, [x63; x0a])])
      {| rcv := NewUDP; lines := newIncompleteStorage 0; parse_calls := [] |}
      = Some st_split ∧
    Listen_loop Some
      [Datagram (mkClock 0 0 0 0 0)
         (payloads [(mkClock 0 1 2 3 4, [x61; x0a; x62]);
                    (mkClock 5 6 7 8 9, [x63; x0a])])
         "10.0.0.1:2003"]
      {| rcv := NewUDP; lines := newIncompleteStorage 0; parse_calls := [] |}
      = Some st_whole ∧
    out (rcv st_split) = out (rcv st_whole) ∧
    out (rcv st_split) =
      [] ++ omap Some
              (stream_records
                 (payloads [(mkClock 0 1 2 3 4, [x61; x0a; x62]);
                            (mkClock 5 6 7 8 9, [x63; x0a])])).
Proof.
  apply (reassembly_of_split_stream Some "10.0.0.1:2003"
           [(mkClock 0 1 2 3 4, [x61; x0a; x62]);
            (mkClock 5 6 7 8 9, [x63; x0a])]
           {| rcv := NewUDP; lines := newIncompleteStorage 0;
              parse_calls := [] |}
           (mkClock 0 0 0 0 0)).
  - reflexivity.
  - simpl. lia.
  - simpl. unfold time.Second. lia.
Defined.

(** An increment lands between the reporter's load and its add: the add
    leaves it in the counter, so the reset does not bring the counter to
    zero as an exchange would. *)
Lemma reset_is_not_exchange_to_zero :
  ¬ (∀ (tr : list (@action unit)) s s' c v,
       exec tr init = Some s →
       rpc s = r_add c v →
       step report_add s = Some s' →
       ctr s' c = 0%Z).
Proof.
  intros H.
  specialize (H [ingest_count c_metricsReceived; report_tick; report_load;
                 ingest_count c_metricsReceived]
                _ _ c_metricsReceived 1%Z eq_refl eq_refl eq_refl).
  vm_compute in H. discriminate H.
Qed.

(** The same execution carried on to the [Stat]: one emitted, one held,
    two issued, and no increment wrapped. *)
Lemma increments_conserved_example :
  ∃ s : @system unit,
    exec [ingest_count c_metricsReceived; report_tick; report_load;
          ingest_count c_metricsReceived; report_add; report_stat] init
      = Some s ∧
    emitted c_metricsReceived (chan_out s) = 1%Z ∧
    ctr s c_metricsReceived = 1%Z ∧
    ((emitted c_metricsReceived (chan_out s)
      + in_flight c_metricsReceived (rpc s)
      + ctr s c_metricsReceived) mod 2 ^ 32
     = @issued unit c_metricsReceived
         [ingest_count c_metricsReceived; report_tick; report_load;
          ingest_count c_metricsReceived; report_add; report_stat]
       mod 2 ^ 32)%Z ∧
    (emitted c_metricsReceived (chan_out s)
     + in_flight c_metricsReceived (rpc s)
     + ctr s c_metricsReceived
     = @issued unit c_metricsReceived
         [ingest_count c_metricsReceived; report_tick; report_load;
          ingest_count c_metricsReceived; report_add; report_stat])%Z.
Proof.
  eexists. split; [reflexivity|]. split; [reflexivity|].
  split; [reflexivity|].
  destruct (increments_conserved (Points := unit)
              [ingest_count c_metricsReceived; report_tick; report_load;
               ingest_count c_metricsReceived; report_add; report_stat]
              _ c_metricsReceived eq_refl) as (Hmod & Hexact & _).
  split; [exact Hmod|]. apply Hexact.
  vm_compute. repeat split; intros; reflexivity.
Defined.

(** A shutdown: [Stop] closes [exit], the reporter closes the connection,
    the ingestion goroutine leaves its loop and closes [finished], [Stop]
    returns. *)
Lemma Stop_returns_after_loop_exit_example :
  ∃ s : @system unit,
    exec [ingest_send tt; stop_close_exit; report_exit; ingest_break;
          ingest_close_finished; stop_receive] init = Some s ∧
    spc s = s_returned ∧
    finished_closed s = true ∧
    (ipc s = i_closed ∨ ipc s = i_returned) ∧
    rpc s = r_returned ∧
    ∀ tr' s', exec tr' s = Some s' →
      chan_out s' = chan_out s ∧
      forwarded (chan_out s') = forwarded (chan_out s).
Proof.
  eexists. split; [reflexivity|]. split; [reflexivity|].
  apply (Stop_returns_after_loop_exit
           [ingest_send tt; stop_close_exit; report_exit; ingest_break;
            ingest_close_finished; stop_receive]).
  - reflexivity.
  - reflexivity.
Defined.

(** The scenario ["foo 1 100\nbar 2"] then [" 200\n"] from one sender: two
    messages forwarded, [metricsReceived] 2, [incompleteReceived] 1. *)
Example two_datagram_scenario :
  (fun st => (out (rcv st), metricsReceived (rcv st),
              incompleteReceived (rcv st), errors (rcv st))) <$>
  Listen (Points := list byte) Some 0
    [Datagram (mkClock 1 2 3 4 5)
       [x66; x6f; x6f; x20; x31; x20; x31; x30; x30; x0a;
        x62; x61; x72; x20; x32] "10.0.0.1:2003";
     Datagram (mkClock 6 7 8 9 10)
       [x20; x32; x30; x30; x0a] "10.0.0.1:2003"]
  = Some ([[x66; x6f; x6f; x20; x31; x20; x31; x30; x30; x0a];
           [x62; x61; x72; x20; x32; x20; x32; x30; x30; x0a]],
          2%Z, 1%Z, 0%Z).
Proof. vm_compute. reflexivity. Qed.

(** The same with the second datagram popped more than [Expires] after
    the first was stored: the fragment is dropped and the second datagram
    is parsed on its own. *)
Example late_datagram_scenario :
  parse_calls <$>
  Listen (Points := list byte) Some 0
    [Datagram (mkClock 1 2 3 4 5)
       [x66; x6f; x6f; x20; x31; x20; x31; x30; x30; x0a;
        x62; x61; x72; x20; x32] "10.0.0.1:2003";
     Datagram (mkClock 5000000003 5000000004 5000000005 5000000006
                 5000000007)
       [x20; x32; x30; x30; x0a] "10.0.0.1:2003"]
  = Some [[x66; x6f; x6f; x20; x31; x20; x31; x30; x30; x0a];
          [x20; x32; x30; x30; x0a]].
Proof. vm_compute. reflexivity. Qed.

(** A datagram of another sender in between does not disturb the first. *)
Example interleaved_scenario :
  forwarded_for (Points := list byte) Some "10.0.0.1:2003"
    [Datagram (mkClock 1 2 3 4 5) [x61; x0a; x62] "10.0.0.1:2003";
     Datagram (mkClock 6 7 8 9 10) [x7a; x0a; x79] "10.0.0.2:2003";
     Datagram (mkClock 11 12 13 14 15) [x63; x0a] "10.0.0.1:2003"]
    {| rcv := NewUDP; lines := newIncompleteStorage 0; parse_calls := [] |}
  = [[x61; x0a]; [x62; x63; x0a]].
Proof. vm_compute. reflexivity. Qed.

(** The error of a read on a closed socket is recognised by its text. *)
Example closure_is_recognised :
  Contains "read udp 127.0.0.1:2003: use of closed network connection"
    closed_message = true ∧
  Contains "read udp 127.0.0.1:2003: i/o timeout" closed_message = false.
Proof. split; reflexivity. Qed.

(** With [MaxSize] reached and [NextPurge] passed, a [store] purges the
    expired entry of another sender and moves [NextPurge] on. *)
Example store_purges_expired :
  let storage :=
    {| Records := {[ "10.0.0.2:2003" :=
                       {| deadline := 10; data := Some [x61] |} ]};
       Expires := 5; NextPurge := 20; MaxSize := 2 |} in
  let storage' := store 30 31 32 33 "10.0.0.1:2003" (Some [x62]) storage in
  Records storage' !! "10.0.0.2:2003" = None ∧
  Records storage' !! "10.0.0.1:2003"
    = Some {| deadline := 35; data := Some [x62] |} ∧
  NextPurge storage' = (33 + time.Second)%Z.
Proof. vm_compute. repeat split; reflexivity. Qed.

(** A fragment stored at 1 and popped at 5. *)
Lemma store_then_pop_example :
  (pop 5 "10.0.0.1:2003"
     (store 1 2 3 4 "10.0.0.1:2003" (Some [x61])
        (newIncompleteStorage 0))).1 = Some [x61] ∧
  Records
    (pop 5 "10.0.0.1:2003"
       (store 1 2 3 4 "10.0.0.1:2003" (Some [x61])
          (newIncompleteStorage 0))).2 !! "10.0.0.1:2003" = None ∧
  ∀ addr', addr' ≠ "10.0.0.1:2003" →
    Records
      (pop 5 "10.0.0.1:2003"
         (store 1 2 3 4 "10.0.0.1:2003" (Some [x61])
            (newIncompleteStorage 0))).2 !! addr' =
    Records
      (store 1 2 3 4 "10.0.0.1:2003" (Some [x61])
         (newIncompleteStorage 0)) !! addr'.
Proof.
  apply (store_then_pop 1 2 3 4 5 "10.0.0.1:2003" (Some [x61])
           (newIncompleteStorage 0)).
  - unfold newIncompleteStorage, time.Second. simpl. lia.
  - unfold newIncompleteStorage, time.Second. simpl. lia.
Defined.

(** A full map ([MaxSize] 1) at purge time: the live entry of another
    sender stays. *)
Lemma store_keeps_live_entries_example :
  Records
    (store 30 31 32 33 "10.0.0.1:2003" (Some [x62])
       {| Records := {[ "10.0.0.2:2003" :=
                          {| deadline := 40; data := Some [x61] |} ]};
          Expires := 5; NextPurge := 20; MaxSize := 1 |})
    !! "10.0.0.2:2003" = Some {| deadline := 40; data := Some [x61] |}.
Proof.
  apply (store_keeps_live_entries 30 31 32 33 "10.0.0.1:2003"
           "10.0.0.2:2003" (Some [x62])
           {| Records := {[ "10.0.0.2:2003" :=
                              {| deadline := 40; data := Some [x61] |} ]};
              Expires := 5; NextPurge := 20; MaxSize := 1 |}
           {| deadline := 40; data := Some [x61] |}).
  - discriminate.
  - reflexivity.
  - simpl. lia.
Defined.

(** The same map with the other entry expired: what is left is live. *)
Lemma store_purge_leaves_live_example :
  (32 ≤ deadline {| deadline := 35; data := Some [x62] |})%Z.
Proof.
  apply (store_purge_leaves_live 30 31 32 33 "10.0.0.1:2003" (Some [x62])
           {| Records := {[ "10.0.0.2:2003" :=
                              {| deadline := 10; data := Some [x61] |} ]};
              Expires := 5; NextPurge := 20; MaxSize := 2 |})
    with (a := "10.0.0.1:2003").
  - vm_compute. intros H. discriminate H.
  - simpl. lia.
  - vm_compute. reflexivity.
Defined.

Lemma store_moves_NextPurge_forward_example :
  (NextPurge
     (store 30 31 32 33 "10.0.0.1:2003" (Some [x62])
        {| Records := {[ "10.0.0.2:2003" :=
                           {| deadline := 10; data := Some [x61] |} ]};
           Expires := 5; NextPurge := 20; MaxSize := 2 |}) = 20%Z ∨
   (20 + time.Second ≤
    NextPurge
      (store 30 31 32 33 "10.0.0.1:2003" (Some [x62])
         {| Records := {[ "10.0.0.2:2003" :=
                            {| deadline := 10; data := Some [x61] |} ]};
            Expires := 5; NextPurge := 20; MaxSize := 2 |}))%Z) ∧
  Expires
    (store 30 31 32 33 "10.0.0.1:2003" (Some [x62])
       {| Records := {[ "10.0.0.2:2003" :=
                          {| deadline := 10; data := Some [x61] |} ]};
          Expires := 5; NextPurge := 20; MaxSize := 2 |}) = 5%Z ∧
  MaxSize
    (store 30 31 32 33 "10.0.0.1:2003" (Some [x62])
       {| Records := {[ "10.0.0.2:2003" :=
                          {| deadline := 10; data := Some [x61] |} ]};
          Expires := 5; NextPurge := 20; MaxSize := 2 |}) = 2%Z.
Proof.
  apply (store_moves_NextPurge_forward 30 31 32 33 "10.0.0.1:2003"
           (Some [x62])
           {| Records := {[ "10.0.0.2:2003" :=
                              {| deadline := 10; data := Some [x61] |} ]};
              Expires := 5; NextPurge := 20; MaxSize := 2 |}).
  lia.
Defined.

(** A datagram, the closure, and a datagram that is never read. *)
Lemma Listen_loop_stops_at_closure_example :
  ∃ st1 : @ingest (list byte),
    Listen_loop Some [Datagram (mkClock 1 2 3 4 5) [x61; x0a] "10.0.0.1:2003"]
      {| rcv := NewUDP; lines := newIncompleteStorage 0; parse_calls := [] |}
      = Some st1 ∧
    finished (rcv st1) = false ∧
    Listen_loop Some
      ([Datagram (mkClock 1 2 3 4 5) [x61; x0a] "10.0.0.1:2003"] ++
       Failure "read udp [::]:2003: use of closed network connection" ::
       [Datagram (mkClock 6 7 8 9 10) [x62; x0a] "10.0.0.1:2003"])
      {| rcv := NewUDP; lines := newIncompleteStorage 0; parse_calls := [] |}
      = Some {| rcv := close_finished (rcv st1); lines := lines st1;
                parse_calls := parse_calls st1 |}.
Proof.
  apply (Listen_loop_stops_at_closure Some
           [Datagram (mkClock 1 2 3 4 5) [x61; x0a] "10.0.0.1:2003"]
           [Datagram (mkClock 6 7 8 9 10) [x62; x0a] "10.0.0.1:2003"]
           "read udp [::]:2003: use of closed network connection"
           {| rcv := NewUDP; lines := newIncompleteStorage 0;
              parse_calls := [] |}).
  - repeat constructor.
  - reflexivity.
Defined.

(** A fragment with deadline 10 and a datagram popped at 11. *)
Lemma receive_drops_expired_example :
  receive (Points := list byte) Some (mkClock 11 12 13 14 15) [x63; x0a]
    "10.0.0.1:2003"
    {| rcv := NewUDP;
       lines := {| Records := {[ "10.0.0.1:2003" :=
                                   {| deadline := 10; data := Some [x61] |} ]};
                   Expires := 5; NextPurge := 20; MaxSize := 2 |};
       parse_calls := [] |} =
  receive Some (mkClock 11 12 13 14 15) [x63; x0a] "10.0.0.1:2003"
    {| rcv := NewUDP;
       lines :=
         set_Records
           (delete "10.0.0.1:2003"
              ({[ "10.0.0.1:2003" :=
                    {| deadline := 10; data := Some [x61] |} ]}
               : gmap string incompleteRecord))
           {| Records := {[ "10.0.0.1:2003" :=
                              {| deadline := 10; data := Some [x61] |} ]};
              Expires := 5; NextPurge := 20; MaxSize := 2 |};
       parse_calls := [] |}.
Proof.
  exact (receive_drops_expired Some (mkClock 11 12 13 14 15) [x63; x0a]
           "10.0.0.1:2003"
           {| rcv := NewUDP;
              lines := {| Records := {[ "10.0.0.1:2003" :=
                                          {| deadline := 10;
                                             data := Some [x61] |} ]};
                          Expires := 5; NextPurge := 20; MaxSize := 2 |};
              parse_calls := [] |}
           {| deadline := 10; data := Some [x61] |}
           eq_refl eq_refl).
Defined.

Lemma receive_empty_datagram_example :
  receive (Points := list byte) Some (mkClock 1 2 3 4 5) [] "10.0.0.1:2003"
    {| rcv := NewUDP; lines := newIncompleteStorage 0; parse_calls := [] |}
  = Some {| rcv := NewUDP; lines := newIncompleteStorage 0;
            parse_calls := [] |}.
Proof.
  apply (receive_empty_datagram Some (mkClock 1 2 3 4 5) "10.0.0.1:2003"
           {| rcv := NewUDP; lines := newIncompleteStorage 0;
              parse_calls := [] |}).
  reflexivity.
Defined.

(** A pending ["a"] and a datagram ["bc"]: the entry becomes ["abc"]. *)
Lemma receive_accumulates_example :
  ∃ st' : @ingest (list byte),
    receive Some (mkClock 2 3 4 5 6) [x62; x63] "10.0.0.1:2003"
      {| rcv := NewUDP;
         lines := {| Records := {[ "10.0.0.1:2003" :=
                                     {| deadline := 10;
                                        data := Some [x61] |} ]};
                     Expires := 5; NextPurge := 20; MaxSize := 2 |};
         parse_calls := [] |} = Some st' ∧
    out (rcv st') = [] ∧
    parse_calls st' = [] ∧
    incompleteReceived (rcv st') = ((0 + 1) mod 2 ^ 32)%Z ∧
    Records (lines st') !! "10.0.0.1:2003" =
      Some {| deadline := (3 + 5)%Z;
              data := Some ([x61] ++ [x62; x63]) |}.
Proof.
  assert (H1 : fragments_clean
                 {| Records := {[ "10.0.0.1:2003" :=
                                    {| deadline := 10;
                                       data := Some [x61] |} ]};
                    Expires := 5; NextPurge := 20; MaxSize := 2 |}).
  { intros addr record Hr. simpl in Hr.
    apply lookup_singleton_Some in Hr as [_ <-]. simpl. unfold newline.
    repeat (apply not_elem_of_cons; split; [discriminate|]).
    apply not_elem_of_nil. }
  assert (H2 : newline ∉ [x62; x63]).
  { unfold newline.
    repeat (apply not_elem_of_cons; split; [discriminate|]).
    apply not_elem_of_nil. }
  exact (receive_accumulates Some (mkClock 2 3 4 5 6) [x62; x63]
           "10.0.0.1:2003"
           {| rcv := NewUDP;
              lines := {| Records := {[ "10.0.0.1:2003" :=
                                          {| deadline := 10;
                                             data := Some [x61] |} ]};
                          Expires := 5; NextPurge := 20; MaxSize := 2 |};
              parse_calls := [] |}
           H1 H2 ltac:(discriminate) ltac:(simpl; lia)).
Defined.

(** Two datagrams of one sender with a datagram of another in between. *)
Lemma reassembly_among_other_senders_example :
  forwarded_for (Points := list byte) Some "10.0.0.1:2003"
    [Datagram (mkClock 1 2 3 4 5) [x61; x0a; x62] "10.0.0.1:2003";
     Datagram (mkClock 6 7 8 9 10) [x7a; x0a; x79] "10.0.0.2:2003";
     Datagram (mkClock 11 12 13 14 15) [x63; x0a] "10.0.0.1:2003"]
    {| rcv := NewUDP; lines := newIncompleteStorage 0; parse_calls := [] |}
  = omap Some
      (stream_records
         (stream_of "10.0.0.1:2003"
            [Datagram (mkClock 1 2 3 4 5) [x61; x0a; x62] "10.0.0.1:2003";
             Datagram (mkClock 6 7 8 9 10) [x7a; x0a; x79] "10.0.0.2:2003";
             Datagram (mkClock 11 12 13 14 15) [x63; x0a]
               "10.0.0.1:2003"])).
Proof.
  apply (reassembly_among_other_senders Some "10.0.0.1:2003"
           [Datagram (mkClock 1 2 3 4 5) [x61; x0a; x62] "10.0.0.1:2003";
            Datagram (mkClock 6 7 8 9 10) [x7a; x0a; x79] "10.0.0.2:2003";
            Datagram (mkClock 11 12 13 14 15) [x63; x0a] "10.0.0.1:2003"]
           {| rcv := NewUDP; lines := newIncompleteStorage 0;
              parse_calls := [] |} 0).
  - reflexivity.
  - repeat constructor.
  - simpl. lia.
  - simpl. unfold time.Second. lia.
Defined.

(** One round of the reporter after a message: the second statistic is
    for [incompleteReceived]. *)
Lemma stats_in_round_order_example :
  ∃ s : @system unit,
    exec (ingest_send tt :: report_round) init = Some s ∧
    c_incompleteReceived = round_counter 1.
Proof.
  destruct (exec (ingest_send tt :: report_round) (@init unit))
    as [s|] eqn:E; [|vm_compute in E; discriminate E].
  exists s. split; [reflexivity|].
  apply (stats_in_round_order (ingest_send tt :: report_round) s 1
           c_incompleteReceived E).
  vm_compute in E. injection E as <-. reflexivity.
Defined.

(** Two increments, then an undisturbed round. *)
Lemma report_round_undisturbed_example :
  ∃ s s' : @system unit,
    exec [ingest_count c_metricsReceived; ingest_count c_errors] init
      = Some s ∧
    exec report_round s = Some s' ∧
    (∀ c, ctr s' c = 0%Z) ∧
    chan_out s' =
      chan_out s ++
        [sent_stat c_metricsReceived (ctr s c_metricsReceived);
         sent_stat c_incompleteReceived (ctr s c_incompleteReceived);
         sent_stat c_errors (ctr s c_errors)] ∧
    rpc s' = r_select.
Proof.
  destruct (exec [ingest_count c_metricsReceived; ingest_count c_errors]
              (@init unit)) as [s|] eqn:E;
    [|vm_compute in E; discriminate E].
  exists s.
  destruct (report_round_undisturbed
              [ingest_count c_metricsReceived; ingest_count c_errors] s E)
    as (s' & H).
  - vm_compute in E. injection E as <-. reflexivity.
  - exists s'. split; [reflexivity | exact H].
Defined.

(** [Stop] is called and the reporter takes the exit branch. *)
Lemma nothing_ends_before_Stop_example :
  ∃ s : @system unit,
    exec [stop_close_exit; report_exit] init = Some s ∧
    spc s ≠ s_idle ∧ exit_closed s = true.
Proof.
  destruct (exec [stop_close_exit; report_exit] (@init unit))
    as [s|] eqn:E; [|vm_compute in E; discriminate E].
  exists s. split; [reflexivity|].
  apply (nothing_ends_before_Stop [stop_close_exit; report_exit] s E).
  left. vm_compute in E. injection E as <-. reflexivity.
Defined.

(** The reporter is in the middle of a round when [Stop] is wanted. *)
Lemma Stop_can_return_example :
  ∃ s s' : @system unit,
    exec [report_tick; report_load; ingest_count c_metricsReceived] init
      = Some s ∧
    exec (stop_exit s) s = Some s' ∧ spc s' = s_returned.
Proof.
  destruct (exec [report_tick; report_load; ingest_count c_metricsReceived]
              (@init unit)) as [s|] eqn:E;
    [|vm_compute in E; discriminate E].
  exists s.
  destruct (Stop_can_return
              [report_tick; report_load; ingest_count c_metricsReceived] s E)
    as (s' & H).
  exists s'. split; [reflexivity | exact H].
Defined.
